(** * MECHAStreamlit: root-section reconstruction and parameter sweep

    A shallow embedding of [src/utils_vizu.py] (module [Vizu]) and of the
    sweep part of [app.py] (module [App]), followed by the properties proved
    about them.

    Conventions of the embedding.
    - Python exceptions are values of [exn]; a computation that may raise has
      type [result A].  [print] calls are not modelled.
    - Floats are exact rationals, the two infinities and NaN ([pyfloat]):
      rounding and overflow are ignored.  The numbers of the sweep, which
      come from widgets and from the simulator, are rationals ([Q]).
    - The calls into the Python runtime and into third-party libraries that
      the code makes ([ET.parse], [int], [float], [shapely.ops.polygonize],
      [np.arctan2], [gpd.GeoDataFrame]) are collected in the interface
      [Externals]; everything proved in the section [Facts] holds for every
      implementation of it.  A reference implementation
      ([reference_externals]) is given for running the embedding on concrete
      documents. *)

From Stdlib Require Import Ascii QArith Qabs Sorted Lqa.
From stdpp Require Import gmap strings list pretty sorting.

#[local] Set Warnings "-register-all".

Local Open Scope Z_scope.

(** ** Exceptions and results *)

Inductive exn : Type :=
| ValueError
| TypeError
| IndexError
| ParseError
| OSError
| GEOSException.

Inductive result (A : Type) : Type :=
| Ok (a : A)
| Raise (e : exn).
Arguments Ok {A} a.
Arguments Raise {A} e.

#[global] Instance result_ret : MRet result := fun _ a => Ok a.
#[global] Instance result_bind : MBind result := fun _ _ f m =>
  match m with
  | Ok a => f a
  | Raise e => Raise e
  end.

Definition raises {A} (r : result A) : Prop := exists e, r = Raise e.

(** ** The part of [xml.etree.ElementTree] that the code uses *)

Inductive Element : Type :=
  mkElement { tag : string; attrib : gmap string string; children : list Element }.

(** [elem.get(key)]: the attribute, or [None]. *)
Definition get (elem : Element) (key : string) : option string := attrib elem !! key.

(** [elem.findall(tag)]: the direct children with that tag, in document order. *)
Definition findall (elem : Element) (t : string) : list Element :=
  List.filter (fun c => String.eqb (tag c) t) (children elem).

(** [elem.find(tag)]: the first such child, or [None]. *)
Definition find (elem : Element) (t : string) : option Element := head (findall elem t).

(** [elem.find("a/b")]: the first [b] child of any [a] child. *)
Definition find2 (elem : Element) (a b : string) : option Element :=
  head (flat_map (fun c => findall c b) (findall elem a)).

(** Truth value of an attribute in a condition: present and not empty. *)
Definition truthy (o : option string) : bool :=
  match o with
  | Some s => negb (String.eqb s "")
  | None => false
  end.

(** ** Floats *)

Inductive pyfloat : Type :=
| Finite (q : Q)
| Inf (negative : bool)
| NaN.

Coercion Finite : Q >-> pyfloat.

Definition is_finite (a : pyfloat) : bool :=
  match a with
  | Finite _ => true
  | _ => false
  end.

Definition is_nan (a : pyfloat) : bool :=
  match a with
  | NaN => true
  | _ => false
  end.

(** [a == b]: NaN is equal to nothing. *)
Definition float_eqb (a b : pyfloat) : bool :=
  match a, b with
  | Finite p, Finite q => Qeq_bool p q
  | Inf s, Inf t => Bool.eqb s t
  | _, _ => false
  end.

Definition fneg (a : pyfloat) : pyfloat :=
  match a with
  | Finite q => Finite (- q)
  | Inf s => Inf (negb s)
  | NaN => NaN
  end.

(** [a + b]: the sum of opposite infinities is NaN. *)
Definition fadd (a b : pyfloat) : pyfloat :=
  match a, b with
  | NaN, _ | _, NaN => NaN
  | Finite p, Finite q => Finite (p + q)
  | Inf s, Finite _ | Finite _, Inf s => Inf s
  | Inf s, Inf t => if Bool.eqb s t then Inf s else NaN
  end.

Definition fsub (a b : pyfloat) : pyfloat := fadd a (fneg b).

(** [a / n] for a count [n]; a division by zero does not arise where the
    code divides (the mean of a column with at least one row). *)
Definition fdiv_count (a : pyfloat) (n : nat) : pyfloat :=
  match n, a with
  | O, _ => NaN
  | _, Finite q => Finite (q / inject_Z (Z.of_nat n))
  | _, _ => a
  end.

(** The order in which numpy sorts: ascending, NaN last. *)
Definition float_leb (a b : pyfloat) : bool :=
  match a, b with
  | _, NaN => true
  | NaN, _ => false
  | Inf true, _ => true
  | _, Inf true => false
  | _, Inf false => true
  | Inf false, _ => false
  | Finite p, Finite q => Qle_bool p q
  end.

Definition float_le (a b : pyfloat) : Prop := float_leb a b = true.

(** ** Geometry values *)

Definition point : Type := pyfloat * pyfloat.

Definition finite_point (p : point) : bool := is_finite (fst p) && is_finite (snd p).

(** Points written with rational coordinates. *)
Definition finite_points (l : list (Q * Q)) : list point :=
  map (fun p => (Finite (fst p), Finite (snd p))) l.

Record LineString : Type := mkLineString { coords : list point }.

(** A polygon is represented by the coordinate sequence of its exterior ring
    as it was handed to the constructor. *)
Record Polygon : Type := mkPolygon { shell : list point }.

Definition is_empty (pg : Polygon) : bool :=
  match shell pg with
  | [] => true
  | _ => false
  end.

Definition point_eqb (p q : point) : bool :=
  float_eqb (fst p) (fst q) && float_eqb (snd p) (snd q).

(** The points of a list without their repetitions. *)
Fixpoint distinct_points (ps : list point) : list point :=
  match ps with
  | [] => []
  | p :: rest =>
      if existsb (point_eqb p) rest then distinct_points rest
      else p :: distinct_points rest
  end.

(** The rational coordinates of a ring, when all of them are finite. *)
Fixpoint finite_coords (cs : list point) : option (list (Q * Q)) :=
  match cs with
  | [] => Some []
  | (Finite x, Finite y) :: rest =>
      match finite_coords rest with
      | Some r => Some ((x, y) :: r)
      | None => None
      end
  | _ => None
  end.

(** Shoelace sum over the closed ring, and [Polygon.area]; [None] when a
    coordinate is not finite (the area is then not a number). *)
Definition cross (p q : Q * Q) : Q := (fst p * snd q - fst q * snd p)%Q.

Fixpoint shoelace (first prev : Q * Q) (rest : list (Q * Q)) : Q :=
  match rest with
  | [] => cross prev first
  | p :: rest' => (cross prev p + shoelace first p rest')%Q
  end.

Definition area (pg : Polygon) : option Q :=
  match finite_coords (shell pg) with
  | Some [] => Some 0%Q
  | Some (p :: rest) => Some (Qabs (shoelace p p rest) / 2)%Q
  | None => None
  end.

(** A row of the returned frame: the columns id_cell, type and geometry.
    [type] is [None] where the frame holds Python's [None]. *)
Record record : Type := mkRecord {
  id_cell : Z;
  type : option string;
  geometry : Polygon
}.

(** ** Runtime and library calls *)

Class Externals : Type := {
  (** [ET.parse(path).getroot()], or the exception it raises. *)
  ET_parse : string -> result Element;
  (** [int(s)] on a string; [None] where Python raises [ValueError]. *)
  int_of_str : string -> option Z;
  (** [float(s)] on a string; [None] where Python raises [ValueError]. *)
  float_of_str : string -> option pyfloat;
  (** [list(shapely.ops.polygonize(lines))]. *)
  polygonize : list LineString -> list Polygon;
  (** [np.arctan2(dy, dx)]. *)
  arctan2 : pyfloat -> pyfloat -> pyfloat;
  (** The exception, if any, with which the geometry library refuses to build
      a ring from coordinates that are not all finite. *)
  ring_error : list point -> option exn;
  (** The exception, if any, that [gpd.GeoDataFrame(records, crs=...)] raises
      when the frame is built from the records. *)
  frame_error : list record -> option exn
}.

Module Vizu.
Section Definitions.
Context `{!Externals}.

(** [Polygon(coords)]: a ring needs at least three coordinate tuples
    (it is closed by repeating the first one); no coordinates at all give
    the empty polygon.  A ring of finite coordinates is always built; one
    with an infinity or a NaN is built unless the library refuses it. *)
Definition Polygon_of_coords (cs : list point) : result Polygon :=
  match cs with
  | [] => Ok (mkPolygon [])
  | [_] | [_; _] => Raise ValueError
  | _ =>
      if forallb finite_point cs then Ok (mkPolygon cs)
      else match ring_error cs with
           | Some e => Raise e
           | None => Ok (mkPolygon cs)
           end
  end.

(** [int(elem.get(key))]: [None] is a [TypeError]. *)
Definition py_int (o : option string) : result Z :=
  match o with
  | None => Raise TypeError
  | Some s =>
      match int_of_str s with
      | Some z => Ok z
      | None => Raise ValueError
      end
  end.

Definition py_float (o : option string) : result pyfloat :=
  match o with
  | None => Raise TypeError
  | Some s =>
      match float_of_str s with
      | Some q => Ok q
      | None => Raise ValueError
      end
  end.

(** *** Groups (source lines 38-50) *)

Definition group_name_of (group_elem : Element) (group_id : Z) : option string :=
  if group_id =? 4 then Some "cortex"
  else if group_id =? 3 then Some "endodermis"
  else get group_elem "name".

Fixpoint groups_loop (elems : list Element) (group_map : gmap Z (option string))
  : result (gmap Z (option string)) :=
  match elems with
  | [] => Ok group_map
  | group_elem :: rest =>
      group_id ← py_int (get group_elem "id");
      groups_loop rest (<[group_id := group_name_of group_elem group_id]> group_map)
  end.

Definition group_elems (root : Element) : list Element :=
  match find2 root "groups" "cellgroups" with
  | Some cellgroups_elem => findall cellgroups_elem "group"
  | None => []
  end.

Definition parse_groups (root : Element) : result (gmap Z (option string)) :=
  groups_loop (group_elems root) ∅.

(** [group_map.get(group_id, f"unknown_group_{group_id}")] (line 89).
    The label is [None] when the dictionary holds Python's [None]. *)
Definition resolve_cell_type (group_map : gmap Z (option string)) (group_id : Z)
  : option string :=
  default (Some ("unknown_group_" +:+ pretty group_id)) (group_map !! group_id).

(** *** Walls (source lines 52-69) *)

Definition has_xy (p : Element) : bool := truthy (get p "x") && truthy (get p "y").

(** The list comprehension of lines 62-66. *)
Fixpoint points_of (ps : list Element) : result (list point) :=
  match ps with
  | [] => Ok []
  | p :: rest =>
      if has_xy p then
        x ← py_float (get p "x");
        y ← py_float (get p "y");
        points ← points_of rest;
        Ok ((x, y) :: points)
      else points_of rest
  end.

(** A point element and the coordinates read from it. *)
Definition reads (p : Element) (pt : point) : Prop :=
  py_float (get p "x") = Ok (fst pt) /\ py_float (get p "y") = Ok (snd pt).

Fixpoint walls_loop (elems : list Element) (wall_linestrings : gmap Z LineString)
  : result (gmap Z LineString) :=
  match elems with
  | [] => Ok wall_linestrings
  | wall_elem :: rest =>
      wall_id ← py_int (get wall_elem "id");
      match find wall_elem "points" with
      | None => walls_loop rest wall_linestrings
      | Some points_elem =>
          points ← points_of (findall points_elem "point");
          if (2 <=? length points)%nat
          then walls_loop rest (<[wall_id := mkLineString points]> wall_linestrings)
          else walls_loop rest wall_linestrings
      end
  end.

Definition wall_elems (root : Element) : list Element :=
  match find root "walls" with
  | Some walls_elem => findall walls_elem "wall"
  | None => []
  end.

Definition parse_walls (root : Element) : result (gmap Z LineString) :=
  walls_loop (wall_elems root) ∅.

(** *** order_polygon (source lines 72-80) *)

Definition fsum (xs : list pyfloat) : pyfloat := fold_right fadd (Finite 0) xs.

(** [arr.mean()] *)
Definition mean (xs : list pyfloat) : pyfloat := fdiv_count (fsum xs) (length xs).

(** [np.argsort]: the indices that sort the keys in ascending order.
    Insertion of (key, index) pairs; equal keys keep their order. *)
Fixpoint insert_key (ki : pyfloat * nat) (l : list (pyfloat * nat))
  : list (pyfloat * nat) :=
  match l with
  | [] => [ki]
  | kj :: l' => if float_leb (fst kj) (fst ki) then kj :: insert_key ki l' else ki :: l
  end.

(** The order of the keys. *)
Definition key_le (a b : pyfloat * nat) : Prop := float_le (fst a) (fst b).

Definition sort_keys (l : list (pyfloat * nat)) : list (pyfloat * nat) :=
  fold_right insert_key [] (rev l).

Definition argsort (keys : list pyfloat) : list nat :=
  map snd (sort_keys (combine keys (seq 0 (length keys)))).

(** [arr[indices]] *)
Definition take_rows (arr : list point) (indices : list nat) : list point :=
  map (fun i => nth i arr (Finite 0, Finite 0)) indices.

(** The angle of [p] seen from the centroid of [points] (lines 77-78). *)
Definition angle_of (points : list point) (p : point) : pyfloat :=
  let cx := mean (map fst points) in
  let cy := mean (map snd points) in
  arctan2 (fsub (snd p) cy) (fsub (fst p) cx).

Definition angles_of (points : list point) : list pyfloat := map (angle_of points) points.

Definition order_points (points : list point) : list point :=
  take_rows points (argsort (angles_of points)).

Definition order_polygon (points : list point) : result Polygon :=
  match points with
  | [] => Raise IndexError
  | _ => Polygon_of_coords (order_points points)
  end.

(** *** Cells (source lines 82-122) *)

(** Lines 95-102: the walls of the cell that are known, and their points. *)
Fixpoint gather (refs : list Element) (wall_linestrings : gmap Z LineString)
    (cell_lines : list LineString) (cell_points : list point)
  : result (list LineString * list point) :=
  match refs with
  | [] => Ok (cell_lines, cell_points)
  | wall_ref :: rest =>
      wall_id ← py_int (get wall_ref "id");
      match wall_linestrings !! wall_id with
      | Some wall =>
          gather rest wall_linestrings (cell_lines ++ [wall]) (cell_points ++ coords wall)
      | None => gather rest wall_linestrings cell_lines cell_points
      end
  end.

Definition wall_refs (cell_elem : Element) : list Element :=
  match find cell_elem "walls" with
  | Some walls_ref_elem => findall walls_ref_elem "wall"
  | None => []
  end.

(** Lines 104-113: polygonize, else the ordered-centroid fallback. *)
Definition reconstruct (cell_type : option string) (cell_lines : list LineString)
    (cell_points : list point) : result (option Polygon * option string) :=
  match cell_lines with
  | [] => Ok (None, cell_type)
  | _ =>
      match polygonize cell_lines with
      | pg :: _ => Ok (Some pg, cell_type)
      | [] =>
          pg ← order_polygon cell_points;
          Ok (Some pg, Some "fallback")
      end
  end.

(** Lines 115-122: the record of the cell, if it gets one. *)
Definition emit (cell_id : Z) (cell_type : option string) (cell_polygon : option Polygon)
  : option record :=
  match cell_polygon with
  | Some pg => if is_empty pg then None else Some (mkRecord cell_id cell_type pg)
  | None => None
  end.

(** One iteration of the loop over the cells. *)
Definition cell_record (group_map : gmap Z (option string))
    (wall_linestrings : gmap Z LineString) (cell_elem : Element) : result (option record) :=
  cell_id ← py_int (get cell_elem "id");
  group_id ← py_int (get cell_elem "group");
  let cell_type := resolve_cell_type group_map group_id in
  lp ← gather (wall_refs cell_elem) wall_linestrings [] [];
  pt ← reconstruct cell_type lp.1 lp.2;
  Ok (emit cell_id pt.2 pt.1).

Fixpoint cells_loop (group_map : gmap Z (option string))
    (wall_linestrings : gmap Z LineString) (elems : list Element) (records : list record)
  : result (list record) :=
  match elems with
  | [] => Ok records
  | cell_elem :: rest =>
      r ← cell_record group_map wall_linestrings cell_elem;
      cells_loop group_map wall_linestrings rest
        (match r with Some rc => records ++ [rc] | None => records end)
  end.

Definition cell_elems (root : Element) : list Element :=
  match find root "cells" with
  | Some cells_elem => findall cells_elem "cell"
  | None => []
  end.

(** What a record of the section says about the mesh it came from. *)
Definition from_cell (wl : gmap Z LineString) (cells : list Element) (r : record) : Prop :=
  is_empty (geometry r) = false /\
  exists c lines pts,
    c ∈ cells /\ py_int (get c "id") = Ok (id_cell r) /\
    gather (wall_refs c) wl [] [] = Ok (lines, pts) /\ lines <> [].

(** The wall element [w] declares the polyline [pts] for the identifier [k]:
    what lines 57-69 need to store it. *)
Definition wall_declares (w : Element) (k : Z) (pts : list point) : Prop :=
  py_int (get w "id") = Ok k /\
  exists points_elem,
    find w "points" = Some points_elem /\
    points_of (findall points_elem "point") = Ok pts /\ (2 <= length pts)%nat.

(** The identifiers that the cell elements declare, as [int] reads them. *)
Definition cell_ids (root : Element) : list (result Z) :=
  map (fun c => py_int (get c "id")) (cell_elems root).

(** The body of [get_root_section] after a successful parse. *)
Definition GeoDataFrame (records : list record) : result (list record) :=
  match frame_error records with
  | Some e => Raise e
  | None => Ok records
  end.

Definition root_section (root : Element) : result (list record) :=
  group_map ← parse_groups root;
  wall_linestrings ← parse_walls root;
  records ← cells_loop group_map wall_linestrings (cell_elems root) [];
  GeoDataFrame records.

(** [get_root_section(xml_file_path)]: a parse failure gives the empty frame. *)
Definition get_root_section (xml_file_path : string) : result (list record) :=
  match ET_parse xml_file_path with
  | Raise _ => Ok []
  | Ok root => root_section root
  end.

End Definitions.
End Vizu.

(** ** A reference implementation of the interface

    Used to run the embedding on concrete documents.  [int] and [float] are
    the decimal literals of Python (surrounding white space, a sign, digits
    with single underscores between them, for floats a fraction and an
    exponent, or inf, infinity and nan); [polygonize] removes dangling lines and chains what is left
    into a ring, which is exact when the lines form no cycle or one simple
    cycle; [arctan2] is replaced by a rational angle measure with the same
    order as the true angle in (-pi, pi]; a ring is refused when its first
    coordinate has a NaN; building the frame never fails. *)

Module Reference.

Definition is_space (c : ascii) : bool :=
  let n := nat_of_ascii c in
  ((n =? 32) || ((9 <=? n) && (n <=? 13)) || ((28 <=? n) && (n <=? 31)))%nat.

Definition digit_of (c : ascii) : option Z :=
  let n := nat_of_ascii c in
  if ((48 <=? n) && (n <=? 57))%nat then Some (Z.of_nat (n - 48)) else None.

Fixpoint lstrip (cs : list ascii) : list ascii :=
  match cs with
  | c :: rest => if is_space c then lstrip rest else cs
  | [] => []
  end.

Definition strip (cs : list ascii) : list ascii := rev (lstrip (rev (lstrip cs))).

(** An optional sign: the factor and the rest. *)
Definition sign_of (cs : list ascii) : Z * list ascii :=
  match cs with
  | "-"%char :: rest => (-1, rest)
  | "+"%char :: rest => (1, rest)
  | _ => (1, cs)
  end.

(** The longest prefix of the form digit ("_"? digit)*: its digits, and the rest. *)
Fixpoint digit_run (cs : list ascii) : list Z * list ascii :=
  match cs with
  | c :: rest =>
      match digit_of c with
      | Some d =>
          match rest with
          | "_"%char :: ((c2 :: _) as rest2) =>
              match digit_of c2 with
              | Some _ => let '(ds, r) := digit_run rest2 in (d :: ds, r)
              | None => ([d], rest)
              end
          | _ => let '(ds, r) := digit_run rest in (d :: ds, r)
          end
      | None => ([], cs)
      end
  | [] => ([], [])
  end.

Definition number_of (ds : list Z) : Z := fold_left (fun acc d => 10 * acc + d) ds 0.

Definition int_ref (s : string) : option Z :=
  let '(sg, cs) := sign_of (strip (String.list_ascii_of_string s)) in
  match digit_run cs with
  | ((_ :: _) as ds, []) => Some (sg * number_of ds)
  | _ => None
  end.

(** The exponent part: empty, or e/E, a sign and digits. *)
Definition exponent_of (cs : list ascii) : option Z :=
  match cs with
  | [] => Some 0
  | c :: rest =>
      if (Ascii.eqb c "e" || Ascii.eqb c "E")%bool then
        let '(sg, cs') := sign_of rest in
        match digit_run cs' with
        | ((_ :: _) as ds, []) => Some (sg * number_of ds)
        | _ => None
        end
      else None
  end.

(** A decimal literal without its sign. *)
Definition decimal_ref (sg : Z) (cs : list ascii) : option Q :=
  let '(ip, cs1) := digit_run cs in
  let '(fp, cs2) :=
    match cs1 with
    | "."%char :: rest => digit_run rest
    | _ => ([], cs1)
    end in
  match ip ++ fp with
  | [] => None
  | ds =>
      match exponent_of cs2 with
      | Some e =>
          let scale := Z.of_nat (length fp) - e in
          Some (if 0 <=? scale
                then Qmake (sg * number_of ds) (Z.to_pos (10 ^ scale))
                else Qmake (sg * number_of ds * 10 ^ (- scale)) 1)
      | None => None
      end
  end.

Definition lower (c : ascii) : ascii :=
  let n := nat_of_ascii c in
  if ((65 <=? n) && (n <=? 90))%nat then ascii_of_nat (n + 32) else c.

(** [float(s)]: inf, infinity and nan in any case, or a decimal literal. *)
Definition float_ref (s : string) : option pyfloat :=
  let '(sg, cs) := sign_of (strip (String.list_ascii_of_string s)) in
  let word := String.string_of_list_ascii (map lower cs) in
  if String.eqb word "inf" || String.eqb word "infinity" then Some (Inf (sg <? 0))
  else if String.eqb word "nan" then Some NaN
  else Finite <$> decimal_ref sg cs.

Definition first_last (l : LineString) : list point :=
  match coords l with
  | [] => []
  | p :: rest => [p; List.last rest p]
  end.

(** Number of line ends that meet at [p]. *)
Definition degree (lines : list LineString) (p : point) : nat :=
  length (List.filter (point_eqb p) (flat_map first_last lines)).

Definition is_dangle (lines : list LineString) (l : LineString) : bool :=
  existsb (fun p => (degree lines p <=? 1)%nat) (first_last l).

Fixpoint prune (fuel : nat) (lines : list LineString) : list LineString :=
  match fuel with
  | O => lines
  | S fuel' =>
      let kept := List.filter (fun l => negb (is_dangle lines l)) lines in
      if (length kept =? length lines)%nat then lines else prune fuel' kept
  end.

(** The first line of the pool that ends at [cur], oriented away from it. *)
Fixpoint pick (cur : point) (pool : list LineString)
  : option (list point * list LineString) :=
  match pool with
  | [] => None
  | l :: rest =>
      match first_last l with
      | [a; b] =>
          if point_eqb a cur then Some (coords l, rest)
          else if point_eqb b cur then Some (rev (coords l), rest)
          else match pick cur rest with
               | Some (cs, rest') => Some (cs, l :: rest')
               | None => None
               end
      | _ => pick cur rest
      end
  end.

Fixpoint chain (fuel : nat) (start cur : point) (ring : list point)
    (pool : list LineString) : option (list point) :=
  if point_eqb cur start then Some ring
  else match fuel with
       | O => None
       | S fuel' =>
           match pick cur pool with
           | Some (cs, pool') =>
               chain fuel' start (List.last cs cur) (ring ++ tail cs) pool'
           | None => None
           end
       end.

Definition polygonize_ref (lines : list LineString) : list Polygon :=
  match prune (length lines) (List.filter (fun l => (2 <=? length (coords l))%nat) lines) with
  | [] => []
  | l :: pool =>
      match first_last l with
      | [a; b] =>
          match chain (length pool) a b (coords l) pool with
          | Some ring => if (4 <=? length ring)%nat then [mkPolygon ring] else []
          | None => []
          end
      | _ => []
      end
  end.

(** A rational measure of the direction of (dx, dy), increasing with the
    angle from just above -pi (value -2) to pi (value 2); 0 at the origin. *)
Definition diamond_angle (dy dx : Q) : Q :=
  if Qeq_bool dy 0 && Qeq_bool dx 0 then 0%Q
  else if Qle_bool 0 dy then
    (if Qle_bool 0 dx then dy / (dx + dy) else 1 + (- dx) / (- dx + dy))%Q
  else
    (if Qle_bool 0 dx then dy / (dx - dy) else - (1) - (- dx) / (- dx - dy))%Q.

(** The same measure for [np.arctan2] on floats: the directions with an
    infinite component are the multiples of a quarter turn that IEEE gives. *)
Definition arctan2_ref (dy dx : pyfloat) : pyfloat :=
  match dy, dx with
  | NaN, _ | _, NaN => NaN
  | Finite y, Finite x => Finite (diamond_angle y x)
  | Inf s, Finite _ => Finite (if s then - (1) else 1)%Q
  | Inf s, Inf false => Finite (if s then - (1 # 2) else 1 # 2)%Q
  | Inf s, Inf true => Finite (if s then - (3 # 2) else 3 # 2)%Q
  | Finite _, Inf false => Finite 0
  | Finite y, Inf true => Finite (if Qle_bool 0 y then 2 else - (2))%Q
  end.

(** A ring whose first coordinate has a NaN cannot be closed: the library
    raises. *)
Definition ring_error_ref (cs : list point) : option exn :=
  match cs with
  | p :: _ => if is_nan (fst p) || is_nan (snd p) then Some GEOSException else None
  | [] => None
  end.

(** The files that exist, as a function from a path to the parsed tree. *)
Definition reference_externals (files : string -> result Element) : Externals := {|
  ET_parse := files;
  int_of_str := int_ref;
  float_of_str := float_ref;
  polygonize := polygonize_ref;
  arctan2 := arctan2_ref;
  ring_error := ring_error_ref;
  frame_error := fun _ => None
|}.

(** A file system with one well-formed document. *)
Definition one_file (path : string) (root : Element) : string -> result Element :=
  fun p => if String.eqb p path then Ok root else Raise OSError.

(** Writing documents down. *)
Definition elem (t : string) (attrs : list (string * string)) (cs : list Element) : Element :=
  mkElement t (list_to_map attrs) cs.

Definition point_elem (x y : string) : Element := elem "point" [("x", x); ("y", y)] [].

Definition wall_elem (id : string) (pts : list Element) : Element :=
  elem "wall" [("id", id)] [elem "points" [] pts].

Definition wall_ref (id : string) : Element := elem "wall" [("id", id)] [].

Definition cell_elem (id group : string) (refs : list Element) : Element :=
  elem "cell" [("id", id); ("group", group)] [elem "walls" [] refs].

Definition mesh (groups walls cells : list Element) : Element :=
  elem "root" []
    [elem "groups" [] [elem "cellgroups" [] groups];
     elem "walls" [] walls;
     elem "cells" [] cells].

End Reference.

(** ** The sweep of [app.py]

    The script's widgets are inputs: the chosen parameter, the mode, the
    number entered (single mode), the pair returned by the slider (range
    mode) and the selected scenarios.  The collaborators of
    [src.mecha_function] act on the files on disk, a state of type [World]:
    [update_xml_attributes] rewrites one attribute, [mecha] runs the
    simulator on the current files and returns the conductivities. *)

Module App.

Inductive Param : Type :=
| cell_wall_thickness
| membrane_permeability
| AQP_contribution
| cell_wall_conductance
| plasmodesmata_conductance.

Record ParamInfo : Type := mkParamInfo { default_val : Q; conversion : Q }.

(** The [default] and [conversion] entries of [PARAM_INFO] (lines 21-52). *)
Definition PARAM_INFO (param : Param) : ParamInfo :=
  match param with
  | cell_wall_thickness => mkParamInfo (15 # 10) 1
  | membrane_permeability => mkParamInfo 3 (1 # 100000)
  | AQP_contribution => mkParamInfo (43 # 10) (1 # 10000)
  | cell_wall_conductance => mkParamInfo (24 # 10) (1 # 10000)
  | plasmodesmata_conductance => mkParamInfo (53 # 10) (1 # 1000000000000)
  end.

Inductive Mode : Type :=
| Single_value
| Range.

(** [np.linspace(start, stop, num)]: [num] samples [start + i * step] with
    [step = (stop - start) / (num - 1)], the last one set to [stop]. *)
Definition linspace (start stop : Q) (num : nat) : list Q :=
  let step := ((stop - start) / inject_Z (Z.of_nat (num - 1)))%Q in
  let y := map (fun i => (inject_Z (Z.of_nat i) * step + start)%Q) (seq 0 num) in
  if (1 <? num)%nat then <[(num - 1)%nat := stop]> y else y.

(** Lines 139-140. *)
Definition min_limit (param : Param) : Q := (default_val (PARAM_INFO param) / 10)%Q.
Definition max_limit (param : Param) : Q := (default_val (PARAM_INFO param) * 10)%Q.

(** What [st.slider(min_value, max_value, value=(lo, hi))] can return. *)
Definition slider_returns (min_value max_value : Q) (selected : Q * Q) : Prop :=
  (min_value <= fst selected /\ fst selected <= snd selected /\ snd selected <= max_value)%Q.

(** Lines 129-153: the values of the sweep. *)
Definition values (param : Param) (mode : Mode) (value : Q) (selected : Q * Q) : list Q :=
  let conv := conversion (PARAM_INFO param) in
  match mode with
  | Single_value => [(value * conv)%Q]
  | Range => linspace (fst selected * conv) (snd selected * conv) 10
  end.

Record SweepResult : Type := mkSweepResult {
  parameter_value : Q;
  kr : Q;
  hydraulic_scenario : Z
}.

Section Sweep.
Variable World : Type.
(** [update_xml_attributes(path, parent_tag, child_tag, attributes)] *)
Variable update_xml_attributes : string -> string -> string -> gmap string string -> World -> World.
(** [mecha()]: the conductivities and the files it leaves, or an exception. *)
Variable mecha : World -> result (list Q * World).
(** [f"{v:spec}"] *)
Variable format : string -> Q -> string.

Definition GEOM_PATH : string := "./MECHA/Projects/granar/in/Geometry.xml".
Definition HYDRAULICS_PATH : string := "./MECHA/Projects/granar/in/Hydraulics.xml".

(** Lines 179-188. *)
Definition apply_value (param : Param) (v : Q) : World -> World :=
  match param with
  | cell_wall_thickness =>
      update_xml_attributes GEOM_PATH "thickness" "thickness" {[ "value" := format ".3f" v ]}
  | membrane_permeability =>
      update_xml_attributes HYDRAULICS_PATH "km" "km" {[ "value" := format ".6f" v ]}
  | AQP_contribution =>
      update_xml_attributes HYDRAULICS_PATH "kAQPrange" "kAQP" {[ "value" := format ".6f" v ]}
  | cell_wall_conductance =>
      update_xml_attributes HYDRAULICS_PATH "kwrange" "kw" {[ "value" := format ".6f" v ]}
  | plasmodesmata_conductance =>
      update_xml_attributes HYDRAULICS_PATH "Kplrange" "Kpl" {[ "value" := format ".3e" v ]}
  end.

(** Lines 192-193: [for i_sc, n_sc in enumerate(scenarios)], from position
    [i_sc] on.  [kr[i_sc]] raises [IndexError] past the end of [kr]. *)
Fixpoint scenarios_loop (v : Q) (kr_out : list Q) (i_sc : nat) (scenarios : list Z)
    (results : list SweepResult) : result (list SweepResult) :=
  match scenarios with
  | [] => Ok results
  | n_sc :: rest =>
      match kr_out !! i_sc with
      | Some k => scenarios_loop v kr_out (S i_sc) rest (results ++ [mkSweepResult v k n_sc])
      | None => Raise IndexError
      end
  end.

(** The state of a running sweep: the files, the records appended so far,
    and the vectors the simulator returned, one per invocation. *)
Record Run : Type := mkRun {
  world : World;
  results : list SweepResult;
  invocations : list (list Q)
}.

(** Lines 177-193: the loop over the values. *)
Fixpoint values_loop (param : Param) (scenarios : list Z) (vs : list Q) (st : Run)
  : result Run :=
  match vs with
  | [] => Ok st
  | v :: rest =>
      out ← mecha (apply_value param v (world st));
      results' ← scenarios_loop v out.1 0 scenarios (results st);
      values_loop param scenarios rest (mkRun out.2 results' (invocations st ++ [out.1]))
  end.

(** Lines 175-193, started on the files [w] with [results = []]. *)
Definition sweep (param : Param) (scenarios : list Z) (vs : list Q) (w : World) : result Run :=
  values_loop param scenarios vs (mkRun w [] []).

(** [simulator_runs param vs w outs w']: the simulator, run once for each
    value of [vs] in order, each time on the files that the previous run left,
    patched with the value, returns the vectors [outs] and leaves the files
    [w']. *)
Inductive simulator_runs (param : Param) : list Q -> World -> list (list Q) -> World -> Prop :=
| runs_nil (w : World) : simulator_runs param [] w [] w
| runs_cons (v : Q) (vs : list Q) (w w1 w' : World) (out : list Q) (outs : list (list Q)) :
    mecha (apply_value param v w) = Ok (out, w1) ->
    simulator_runs param vs w1 outs w' ->
    simulator_runs param (v :: vs) w (out :: outs) w'.

(** Two readings of how a record gets its conductivity from the vector
    [out] that the simulator returned for its value: the entry at the
    position [j] of the scenario in the selection, or the entry at the index
    given by the scenario identifier [n_sc].  Record [(i, j)] is the one for
    the [i]-th value and the [j]-th selected scenario. *)
Definition kr_read_with (index : nat -> Z -> nat) (scenarios : list Z) (vs : list Q)
    (run : Run) : Prop :=
  forall i j v n_sc, vs !! i = Some v -> scenarios !! j = Some n_sc ->
    exists out k,
      invocations run !! i = Some out /\ out !! index j n_sc = Some k /\
      results run !! (i * length scenarios + j)%nat = Some (mkSweepResult v k n_sc).

Definition kr_read_by_position : list Z -> list Q -> Run -> Prop :=
  kr_read_with (fun j _ => j).

Definition kr_read_by_identifier : list Z -> list Q -> Run -> Prop :=
  kr_read_with (fun _ n_sc => Z.to_nat n_sc).

End Sweep.

Arguments mkRun {World} _ _ _.
Arguments world {World} _.
Arguments results {World} _.
Arguments invocations {World} _.
Arguments kr_read_with {World} _ _ _ _.
Arguments kr_read_by_position {World} _ _ _.
Arguments kr_read_by_identifier {World} _ _ _.

(** A simulator that counts its own invocations: the files are paired with a
    counter that every call of the simulator advances by one and that the
    attribute patcher leaves alone. *)
Definition counted {World : Type} (mecha : World -> result (list Q * World))
    (wc : World * nat) : result (list Q * (World * nat)) :=
  out ← mecha wc.1; Ok (out.1, (out.2, S wc.2)).

Definition on_files {World : Type}
    (update_xml_attributes : string -> string -> string -> gmap string string -> World -> World)
    (path parent child : string) (attrs : gmap string string) (wc : World * nat)
  : World * nat :=
  (update_xml_attributes path parent child attrs wc.1, wc.2).

(** A simulator stand-in for running the sweep: the files are the text of
    the last value written, the output is a fixed vector. *)
Definition fixed_mecha (out : list Q) (w : string) : result (list Q * string) := Ok (out, w).
Definition write_value (path parent child : string) (attrs : gmap string string) (w : string)
  : string := default w (attrs !! "value").
Definition show_value (spec : string) (v : Q) : string :=
  pretty (Qnum v) +:+ "/" +:+ pretty (Z.pos (Qden v)).

(** A simulator that fails on the files that hold the value [bad]. *)
Definition moody_mecha (bad : string) (out : list Q) (w : string)
  : result (list Q * string) :=
  if String.eqb w bad then Raise OSError else Ok (out, w).

End App.

(** ** Concrete meshes *)

Module Examples.
Import Reference.

Definition unit_segment : Element := wall_elem "1" [point_elem "0" "0"; point_elem "1" "0"].

Definition triangle_walls : list Element :=
  [unit_segment;
   wall_elem "2" [point_elem "1" "0"; point_elem "0" "1"];
   wall_elem "3" [point_elem "0" "1"; point_elem "0" "0"]].

Definition triangle_refs : list Element := [wall_ref "1"; wall_ref "2"; wall_ref "3"].

(** A closed triangle, cell 1 of group 4, no group declared. *)
Definition mesh_triangle : Element :=
  mesh [] triangle_walls [cell_elem "1" "4" triangle_refs].

(** The same with groups 4 and 3 declared under other names, and group 7. *)
Definition mesh_triangle_groups : Element :=
  mesh [elem "group" [("id", "4"); ("name", "stele")] [];
        elem "group" [("id", "3"); ("name", "pith")] [];
        elem "group" [("id", "7"); ("name", "xylem")] []]
       triangle_walls [cell_elem "1" "4" triangle_refs].

(** Group 7 declared without a name; the cell is of group 7. *)
Definition mesh_nameless_group : Element :=
  mesh [elem "group" [("id", "7")] []] triangle_walls [cell_elem "1" "7" triangle_refs].

(** A wall with one non-numeric x among three points. *)
Definition bad_x_wall : Element :=
  wall_elem "1" [point_elem "abc" "0"; point_elem "1" "0"; point_elem "2" "0"].

Definition mesh_bad_coordinate : Element :=
  mesh [] [bad_x_wall; wall_elem "2" [point_elem "0" "0"; point_elem "0" "1"]]
       [cell_elem "1" "4" [wall_ref "2"]].

(** A wall with one empty x among three points. *)
Definition empty_x_wall : Element :=
  wall_elem "1" [point_elem "" "0"; point_elem "1" "0"; point_elem "2" "0"].

(** A cell whose id is not a number. *)
Definition mesh_bad_cell_id : Element :=
  mesh [] triangle_walls [cell_elem "c1" "4" triangle_refs].

(** A single open 2-point wall, referenced by cell 2 of the undeclared group 9. *)
Definition mesh_single_open_wall : Element :=
  mesh [] [unit_segment] [cell_elem "2" "9" [wall_ref "1"]].

(** Two walls that meet at (1, 0) and do not close. *)
Definition open_cell : Element := cell_elem "5" "4" [wall_ref "1"; wall_ref "2"].

Definition mesh_open_polyline : Element :=
  mesh [] [unit_segment; wall_elem "2" [point_elem "1" "0"; point_elem "1" "1"]] [open_cell].

(** Two walls on one straight line. *)
Definition mesh_collinear : Element :=
  mesh [] [unit_segment; wall_elem "2" [point_elem "1" "0"; point_elem "2" "0"]]
       [cell_elem "2" "7" [wall_ref "1"; wall_ref "2"]].

(** A single open wall of three points, the first with a NaN abscissa. *)
Definition mesh_nan_wall : Element :=
  mesh [] [wall_elem "1" [point_elem "nan" "0"; point_elem "1" "0"; point_elem "1" "1"]]
       [cell_elem "1" "4" [wall_ref "1"]].

(** Two wall elements with the same id. *)
Definition second_wall_1 : Element := wall_elem "1" [point_elem "0" "0"; point_elem "0" "1"].

Definition mesh_repeated_wall : Element :=
  mesh [] [unit_segment; second_wall_1] [cell_elem "1" "4" [wall_ref "1"]].

(** References to a known wall, an unknown one and the known one again. *)
Definition mixed_refs : list Element := [wall_ref "1"; wall_ref "99"; wall_ref "1"].

(** The triangle cell on its own. *)
Definition triangle_cell : Element := cell_elem "1" "4" triangle_refs.

(** The runtime with the document [root] stored as mesh.xml. *)
Definition on_disk (root : Element) : Externals :=
  reference_externals (one_file "mesh.xml" root).

End Examples.

(** ** The rest of [app.py]: the preview, the files, the display *)

(** The preview of the mesh: lines 105-113 of [app.py] with
    [plot_root_section] (lines 129-155 of [utils_vizu.py]). *)
Module Preview.

Inductive outcome : Type :=
| NoFile                           (** there is no current_root.xml *)
| EmptyNotice                      (** "GeoDataFrame is empty, cannot plot." is printed *)
| Figure (records : list record)   (** the section is drawn *)
| ErrorMessage (e : exn).          (** st.error("Could not parse geometry: ...") *)

Definition CURRENT_ROOT : string := "./MECHA/cellsetdata/current_root.xml".

Section Definitions.
Context `{!Externals}.
(** The exception, if any, raised while the figure is drawn. *)
Variable plot_error : list record -> option exn.

(** [plot_root_section(root_gdf)], inside the caller's [try]. *)
Definition plot_root_section (root_gdf : list record) : outcome :=
  match root_gdf with
  | [] => EmptyNotice
  | _ =>
      match plot_error root_gdf with
      | Some e => ErrorMessage e
      | None => Figure root_gdf
      end
  end.

(** Lines 106-113; [file_exists] is [os.path.exists] of the mesh file. *)
Definition preview (file_exists : bool) : outcome :=
  if file_exists then
    match Vizu.get_root_section CURRENT_ROOT with
    | Ok root_section => plot_root_section root_section
    | Raise e => ErrorMessage e
    end
  else NoFile.

End Definitions.
End Preview.

(** The files of a run.  The files on disk are a map from absolute paths to
    contents; paths with different absolute forms name different files, and
    the directories of the paths exist. *)
Module Files.

Definition GEOM_PATH_INIT : string := "./MECHA/Projects/granar/in/Default_Geometry.xml".
Definition HYDRAULICS_PATH_INIT : string :=
  "./MECHA/Projects/granar/in/Default_Maize_Hydraulics.xml".
Definition GEOM_PATH_PRE : string := "./MECHA/Projects/granar/in/Preloaded_Geometry.xml".

Section Definitions.
(** [os.path.abspath] *)
Variable abspath : string -> string.

(** [safe_copy(src, dst)] (lines 56-61); [shutil.copy] raises an [OSError]
    when [src] does not exist. *)
Definition safe_copy (src dst : string) (fs : gmap string string)
  : result (gmap string string) :=
  if String.eqb (abspath src) (abspath dst) then Ok fs
  else match fs !! abspath src with
       | Some content => Ok (<[abspath dst := content]> fs)
       | None => Raise OSError
       end.

(** The clean start of a run (lines 165-170). *)
Definition clean_start (use_preloaded : bool) (fs : gmap string string)
  : result (gmap string string) :=
  fs1 ← (if use_preloaded then safe_copy GEOM_PATH_PRE App.GEOM_PATH fs
         else safe_copy GEOM_PATH_INIT App.GEOM_PATH fs);
  safe_copy HYDRAULICS_PATH_INIT App.HYDRAULICS_PATH fs1.

(** Lines 97-100: the uploaded pair is written to its target locations. *)
Definition save_upload (cellset_file geometry_file : string) (fs : gmap string string)
  : gmap string string :=
  <[abspath App.GEOM_PATH := geometry_file]>
    (<[abspath Preview.CURRENT_ROOT := cellset_file]> fs).

Variable update_xml_attributes :
  string -> string -> string -> gmap string string -> gmap string string -> gmap string string.
Variable mecha : gmap string string -> result (list Q * gmap string string).
(** [set_hydraulic_scenario(path, scenarios)] *)
Variable set_hydraulic_scenario : string -> list Z -> gmap string string -> gmap string string.
Variable format : string -> Q -> string.

(** The body of the run button up to the end of the sweep (lines 163-193). *)
Definition run_simulation (use_preloaded : bool) (param : App.Param) (scenarios : list Z)
    (vs : list Q) (fs : gmap string string) : result (App.Run (gmap string string)) :=
  fs1 ← clean_start use_preloaded fs;
  App.sweep (gmap string string) update_xml_attributes mecha format param scenarios vs
    (set_hydraulic_scenario App.GEOM_PATH scenarios fs1).

End Definitions.

(** Stand-ins for running a run: a disk with the three source files, a
    patcher that writes the value into the file, and a simulator whose first
    conductivity is the size of Geometry.xml. *)
Definition base_disk : gmap string string :=
  list_to_map [(GEOM_PATH_INIT, "default geometry"); (GEOM_PATH_PRE, "preloaded");
               (HYDRAULICS_PATH_INIT, "maize")].

Definition disk_with (geometry hydraulics : string) : gmap string string :=
  <[App.GEOM_PATH := geometry]> (<[App.HYDRAULICS_PATH := hydraulics]> base_disk).

Definition patch_file (path parent child : string) (attrs : gmap string string)
    (fs : gmap string string) : gmap string string :=
  <[path := default "" (attrs !! "value")]> fs.

Definition geometry_size_mecha (fs : gmap string string)
  : result (list Q * gmap string string) :=
  Ok ([inject_Z (Z.of_nat (String.length (default "" (fs !! App.GEOM_PATH)))); 8%Q], fs).

End Files.

(** The curves of the plot (lines 197-204).  [None] stands for the
    [KeyError] of [df["hydraulic_scenario"]] on a frame built from no
    record, which has no column. *)
Module Display.
Import App.

(** [Series.unique()]: the values in order of first appearance. *)
Fixpoint unique (l : list Z) : list Z :=
  match l with
  | [] => []
  | x :: l' => x :: List.filter (fun y => negb (y =? x)) (unique l')
  end.

(** The value and the scenario of a record. *)
Definition key (r : SweepResult) : Q * Z := (parameter_value r, hydraulic_scenario r).

(** [df[df["hydraulic_scenario"] == n_sc]] *)
Definition series (df : list SweepResult) (n_sc : Z) : list SweepResult :=
  List.filter (fun r => hydraulic_scenario r =? n_sc) df.

(** One curve per scenario, in ascending order of the scenarios: the
    scenario and the points (parameter_value, kr) of its records. *)
Definition curves (df : list SweepResult) : option (list (Z * list (Q * Q))) :=
  match df with
  | [] => None
  | _ =>
      Some (map (fun n_sc => (n_sc, map (fun r => (parameter_value r, kr r)) (series df n_sc)))
              (merge_sort Z.le (unique (map hydraulic_scenario df))))
  end.

End Display.

(** * Properties of the sweep *)

Module AppProofs.
Import App.

Section SweepFacts.
Context {World : Type}.
Variable update_xml_attributes :
  string -> string -> string -> gmap string string -> World -> World.
Variable mecha : World -> result (list Q * World).
Variable format : string -> Q -> string.

Local Abbreviation values_loop := (App.values_loop World update_xml_attributes mecha format).
Local Abbreviation sweep := (App.sweep World update_xml_attributes mecha format).

(** The inner loop appends one record per scenario, read at consecutive
    positions of the simulator's vector. *)
Lemma scenarios_loop_inv (v : Q) (out : list Q) (scenarios : list Z) :
  forall (i_sc : nat) (res res' : list SweepResult),
    App.scenarios_loop v out i_sc scenarios res = Ok res' ->
    exists new,
      res' = res ++ new /\ length new = length scenarios /\
      forall j n_sc, scenarios !! j = Some n_sc ->
        exists k, out !! (i_sc + j)%nat = Some k /\
                  new !! j = Some (mkSweepResult v k n_sc).
Proof.
  induction scenarios as [|n rest IH]; intros i_sc res res' Hrun; simpl in Hrun.
  - injection Hrun as <-. exists []. rewrite app_nil_r. repeat split; auto.
    intros j n_sc Hj. rewrite lookup_nil in Hj. discriminate.
  - destruct (out !! i_sc) as [k|] eqn:Hk; [|discriminate].
    apply IH in Hrun as (new & -> & Hlen & Hnew).
    exists (mkSweepResult v k n :: new). split; [|split].
    + rewrite <- app_assoc. reflexivity.
    + simpl. rewrite Hlen. reflexivity.
    + intros [|j] n_sc Hj; simpl in Hj.
      * injection Hj as <-. exists k. rewrite Nat.add_0_r. split; auto.
      * apply Hnew in Hj as (k' & Hout & Hrec). exists k'.
        replace (i_sc + S j)%nat with (S i_sc + j)%nat by lia. split; auto.
Qed.

(** It runs to the end when the vector is long enough. *)
Lemma scenarios_loop_total (v : Q) (out : list Q) (scenarios : list Z) :
  forall (i_sc : nat) (res : list SweepResult),
    (i_sc + length scenarios <= length out)%nat ->
    exists res', App.scenarios_loop v out i_sc scenarios res = Ok res'.
Proof.
  induction scenarios as [|n rest IH]; intros i_sc res Hlen; simpl.
  - eauto.
  - simpl in Hlen. destruct (lookup_lt_is_Some_2 out i_sc) as [k Hk]; [lia|].
    rewrite Hk. apply IH. lia.
Qed.

Lemma values_loop_inv (param : Param) (scenarios : list Z) (vs : list Q) :
  forall (st st' : Run World),
    values_loop param scenarios vs st = Ok st' ->
    exists new outs,
      results st' = results st ++ new /\
      invocations st' = invocations st ++ outs /\
      length outs = length vs /\
      length new = (length vs * length scenarios)%nat /\
      forall i j v n_sc, vs !! i = Some v -> scenarios !! j = Some n_sc ->
        exists out k,
          outs !! i = Some out /\ out !! j = Some k /\
          new !! (i * length scenarios + j)%nat = Some (mkSweepResult v k n_sc).
Proof.
  induction vs as [|v rest IH]; intros st st' Hrun; simpl in Hrun.
  - injection Hrun as <-. exists [], []. rewrite !app_nil_r.
    repeat split; auto. intros i j v n_sc Hi. rewrite lookup_nil in Hi. discriminate.
  - destruct (mecha _) as [[out w']|e] eqn:Hm; [|discriminate]. simpl in Hrun.
    destruct (App.scenarios_loop v out 0 scenarios (results st)) as [res1|e] eqn:Hs;
      [|discriminate]. simpl in Hrun.
    apply scenarios_loop_inv in Hs as (new1 & -> & Hlen1 & Hnew1).
    apply IH in Hrun as (new & outs & Hres & Hinv & Hlo & Hln & Hrec). simpl in *.
    exists (new1 ++ new), (out :: outs). split; [|split; [|split; [|split]]].
    + rewrite Hres, <- app_assoc. reflexivity.
    + rewrite Hinv, <- app_assoc. reflexivity.
    + simpl. lia.
    + rewrite length_app. lia.
    + intros [|i] j v' n_sc Hi Hj; simpl in Hi.
      * injection Hi as <-. destruct (Hnew1 _ _ Hj) as (k & Hk & Hr).
        exists out, k. repeat split; auto.
        rewrite lookup_app_l; [exact Hr|].
        rewrite Hlen1. apply lookup_lt_Some in Hj. lia.
      * destruct (Hrec _ _ _ _ Hi Hj) as (out' & k & Ho & Hk & Hr).
        exists out', k. repeat split; auto.
        rewrite lookup_app_r; [|rewrite Hlen1; simpl; lia].
        rewrite Hlen1. replace (S i * length scenarios + j - length scenarios)%nat
          with (i * length scenarios + j)%nat by (simpl; lia). exact Hr.
Qed.

Lemma values_loop_total (param : Param) (scenarios : list Z) (vs : list Q) :
  (forall w, exists out w', mecha w = Ok (out, w') /\
                            (length scenarios <= length out)%nat) ->
  forall st : Run World, exists st', values_loop param scenarios vs st = Ok st'.
Proof.
  intros Hm. induction vs as [|v rest IH]; intros st; simpl.
  - eauto.
  - destruct (Hm (apply_value World update_xml_attributes format param v (world st)))
      as (out & w' & -> & Hlen). simpl.
    destruct (scenarios_loop_total v out scenarios 0 (results st)) as [res' ->]; [lia|].
    simpl. apply IH.
Qed.

Local Abbreviation simulator_runs :=
  (App.simulator_runs World update_xml_attributes mecha format).
Local Abbreviation counted_sweep :=
  (App.sweep (World * nat) (on_files update_xml_attributes) (counted mecha) format).

(** The vectors logged by the loop are those that the simulator returns when
    it is run once per value, and the files left are those of the last run. *)
Lemma values_loop_runs (param : Param) (scenarios : list Z) (vs : list Q) :
  forall st st' : Run World,
    values_loop param scenarios vs st = Ok st' ->
    exists outs,
      invocations st' = invocations st ++ outs /\
      simulator_runs param vs (world st) outs (world st').
Proof.
  induction vs as [|v rest IH]; intros st st' Hrun; simpl in Hrun.
  - injection Hrun as <-. exists []. rewrite app_nil_r. split; [reflexivity|constructor].
  - destruct (mecha _) as [[out w1]|e] eqn:Hm; [|discriminate]. simpl in Hrun.
    destruct (App.scenarios_loop v out 0 scenarios (results st)) as [res1|e]; [|discriminate].
    simpl in Hrun. apply IH in Hrun as (outs & Hinv & Hruns). simpl in Hinv, Hruns.
    exists (out :: outs). split; [rewrite Hinv, <- app_assoc; reflexivity|].
    econstructor; eassumption.
Qed.

Lemma apply_value_on_files (param : Param) (v : Q) (w : World) (c : nat) :
  App.apply_value (World * nat) (on_files update_xml_attributes) format param v (w, c)
  = (App.apply_value World update_xml_attributes format param v w, c).
Proof. destruct param; reflexivity. Qed.

Lemma counted_pair (w : World) (c : nat) :
  counted mecha (w, c) = (out ← mecha w; Ok (out.1, (out.2, S c))).
Proof. reflexivity. Qed.

(** With a simulator that counts its invocations the loop does what it does
    without the counter, and advances the counter by the number of values. *)
Lemma counted_values_loop (param : Param) (scenarios : list Z) (vs : list Q) :
  forall (st : Run World) (c : nat),
    App.values_loop (World * nat) (on_files update_xml_attributes) (counted mecha) format
      param scenarios vs (mkRun (world st, c) (results st) (invocations st))
    = (st' ← values_loop param scenarios vs st;
       Ok (mkRun (world st', (c + length vs)%nat) (results st') (invocations st'))).
Proof.
  induction vs as [|v rest IH]; intros st c.
  - simpl. rewrite Nat.add_0_r. reflexivity.
  - cbn [App.values_loop world results invocations]. rewrite apply_value_on_files.
    rewrite counted_pair.
    destruct (mecha _) as [[out w1]|e]; [|reflexivity]. simpl.
    destruct (App.scenarios_loop v out 0 scenarios (results st)) as [res1|e]; [|reflexivity].
    simpl. pose proof (IH (mkRun w1 res1 (invocations st ++ [out])) (S c)) as IH'.
    simpl in IH'. rewrite IH'.
    replace (S (c + length rest))%nat with (c + S (length rest))%nat by lia.
    replace (S c + length rest)%nat with (c + S (length rest))%nat by lia.
    reflexivity.
Qed.

Lemma counted_sweep_eq (param : Param) (scenarios : list Z) (vs : list Q) (w : World)
    (c : nat) :
  counted_sweep param scenarios vs (w, c)
  = (run ← sweep param scenarios vs w;
     Ok (mkRun (world run, (c + length vs)%nat) (results run) (invocations run))).
Proof. unfold App.sweep. exact (counted_values_loop param scenarios vs (mkRun w [] []) c). Qed.

(** C9: a completed sweep over n values and k scenarios has exactly n * k
    records, and record number i * k + j carries the i-th generated value and
    the j-th selected scenario; the simulator is invoked exactly n times, once
    per value: the vectors of the run are those that the simulator returns
    when it is run once for each value in order, and a simulator that counts
    its own invocations ends the same sweep with its counter advanced by n;
    and the sweep does complete when the simulator answers every call with a
    vector that has an entry for each selected position. *)
Theorem sweep_record_and_invocation_counts (param : Param) (scenarios : list Z)
    (vs : list Q) (w : World) :
  (forall run, sweep param scenarios vs w = Ok run ->
     length (results run) = (length vs * length scenarios)%nat /\
     length (invocations run) = length vs /\
     simulator_runs param vs w (invocations run) (world run) /\
     forall i j v n_sc, vs !! i = Some v -> scenarios !! j = Some n_sc ->
       exists r, results run !! (i * length scenarios + j)%nat = Some r /\
                 parameter_value r = v /\ hydraulic_scenario r = n_sc) /\
  (forall c,
     counted_sweep param scenarios vs (w, c)
     = (run ← sweep param scenarios vs w;
        Ok (mkRun (world run, (c + length vs)%nat) (results run) (invocations run)))) /\
  ((forall w0, exists out w', mecha w0 = Ok (out, w') /\
                              (length scenarios <= length out)%nat) ->
   exists run, sweep param scenarios vs w = Ok run).
Proof.
  split; [|split].
  - intros run Hrun.
    destruct (values_loop_runs _ _ _ _ _ Hrun) as (outs' & Hinv' & Hruns).
    simpl in Hinv', Hruns. rewrite <- Hinv' in Hruns.
    apply values_loop_inv in Hrun as (new & outs & Hres & Hinv & Hlo & Hln & Hrec).
    simpl in Hres, Hinv. split; [congruence|]. split; [congruence|].
    split; [exact Hruns|].
    intros i j v n_sc Hi Hj. destruct (Hrec _ _ _ _ Hi Hj) as (out & k & _ & _ & Hr).
    eexists. rewrite Hres. split; [exact Hr|]. split; reflexivity.
  - intros c. apply counted_sweep_eq.
  - intros Hm. apply values_loop_total. exact Hm.
Qed.

(** C1 (amended): in a completed sweep the simulator was invoked once per
    generated value (the vectors of the run are those that the simulator
    returns when it is run once for each value in order, and a simulator that
    counts its own invocations ends the same sweep with its counter advanced
    by the number of values), and the record for the i-th value and the j-th
    selected scenario carries the entry at position j (the position of the
    scenario in the selection) of the vector returned by the i-th
    invocation. *)
Theorem sweep_kr_read_by_position (param : Param) (scenarios : list Z)
    (vs : list Q) (w : World) (run : Run World) :
  sweep param scenarios vs w = Ok run ->
  length (invocations run) = length vs /\
  simulator_runs param vs w (invocations run) (world run) /\
  (forall c,
     counted_sweep param scenarios vs (w, c)
     = Ok (mkRun (world run, (c + length vs)%nat) (results run) (invocations run))) /\
  kr_read_by_position scenarios vs run.
Proof.
  intros Hrun.
  destruct (values_loop_runs _ _ _ _ _ Hrun) as (outs' & Hinv' & Hruns).
  simpl in Hinv', Hruns. rewrite <- Hinv' in Hruns.
  assert (Hcount : forall c,
             counted_sweep param scenarios vs (w, c)
             = Ok (mkRun (world run, (c + length vs)%nat) (results run) (invocations run))).
  { intros c. rewrite counted_sweep_eq, Hrun. reflexivity. }
  apply values_loop_inv in Hrun as (new & outs & Hres & Hinv & Hlo & Hln & Hrec).
  simpl in Hres, Hinv. split; [congruence|]. split; [exact Hruns|]. split; [exact Hcount|].
  intros i j v n_sc Hi Hj. destruct (Hrec _ _ _ _ Hi Hj) as (out & k & Ho & Hk & Hr).
  exists out, k. rewrite Hres, Hinv. auto.
Qed.

End SweepFacts.

(** C1 (as stated) fails: with scenario 3 selected alone, the record gets
    entry 0 of the simulator's vector, not entry 3. *)
Lemma sweep_kr_not_read_by_identifier :
  exists run,
    App.sweep string write_value (fixed_mecha [7; 8; 9; 10; 11]%Q) show_value
      membrane_permeability [3] [1%Q] "" = Ok run /\
    ~ kr_read_by_identifier [3] [1%Q] run.
Proof.
  eexists. split; [vm_compute; reflexivity|].
  intros H. destruct (H 0%nat 0%nat 1%Q 3 eq_refl eq_refl) as (out & k & Hi & Hk & Hr).
  simpl in Hi. injection Hi as <-. simpl in Hk. injection Hk as <-.
  simpl in Hr. discriminate Hr.
Qed.

Lemma sweep_kr_read_by_position_witness :
  kr_read_by_position [3; 1] [1%Q; 2%Q]
    (mkRun "2/1"
       [mkSweepResult 1 7 3; mkSweepResult 1 8 1; mkSweepResult 2 7 3; mkSweepResult 2 8 1]
       [[7; 8; 9; 10; 11]%Q; [7; 8; 9; 10; 11]%Q]) /\
  App.sweep (string * nat) (on_files write_value) (counted (fixed_mecha [7; 8; 9; 10; 11]%Q))
    show_value membrane_permeability [3; 1] [1%Q; 2%Q] ("", 0%nat)
  = Ok (mkRun ("2/1", 2%nat)
          [mkSweepResult 1 7 3; mkSweepResult 1 8 1; mkSweepResult 2 7 3; mkSweepResult 2 8 1]
          [[7; 8; 9; 10; 11]%Q; [7; 8; 9; 10; 11]%Q]).
Proof.
  destruct (sweep_kr_read_by_position write_value (fixed_mecha [7; 8; 9; 10; 11]%Q) show_value
              membrane_permeability [3; 1] [1%Q; 2%Q] ""
              (mkRun "2/1"
                 [mkSweepResult 1 7 3; mkSweepResult 1 8 1;
                  mkSweepResult 2 7 3; mkSweepResult 2 8 1]
                 [[7; 8; 9; 10; 11]%Q; [7; 8; 9; 10; 11]%Q]))
    as (_ & _ & Hcount & Hpos).
  - vm_compute. reflexivity.
  - split; [exact Hpos|exact (Hcount 0%nat)].
Defined.

Lemma sweep_record_and_invocation_counts_witness :
  exists run,
    App.sweep string write_value (fixed_mecha [7; 8; 9; 10; 11]%Q) show_value
      cell_wall_thickness [0; 4] [1%Q; 2%Q; 3%Q] "" = Ok run /\
    length (results run) = 6%nat /\ length (invocations run) = 3%nat /\
    App.sweep (string * nat) (on_files write_value)
      (counted (fixed_mecha [7; 8; 9; 10; 11]%Q)) show_value
      cell_wall_thickness [0; 4] [1%Q; 2%Q; 3%Q] ("", 0%nat)
    = Ok (mkRun (world run, 3%nat) (results run) (invocations run)).
Proof.
  destruct (sweep_record_and_invocation_counts write_value (fixed_mecha [7; 8; 9; 10; 11]%Q)
              show_value cell_wall_thickness [0; 4] [1%Q; 2%Q; 3%Q] "")
    as (Hcounts & Hcount & Htotal).
  destruct Htotal as [run Hrun].
  - intros w0. exists [7; 8; 9; 10; 11]%Q, w0. split; [reflexivity|simpl; lia].
  - exists run. destruct (Hcounts run Hrun) as (Hres & Hinv & _).
    split; [exact Hrun|]. split; [exact Hres|]. split; [exact Hinv|].
    rewrite (Hcount 0%nat), Hrun. reflexivity.
Defined.

(** ** The generated values *)

(** C8: in single mode exactly one value is generated, the entered value
    times the conversion factor; in range mode exactly 10 values, the first
    equal to the lower bound times the factor, the last to the upper bound
    times the factor, consecutive ones a ninth of the span apart; and what
    the slider can return lies between a tenth of the default and ten times
    the default. *)
Theorem values_single_and_range (param : Param) (value : Q) (selected : Q * Q) :
  slider_returns (min_limit param) (max_limit param) selected ->
  let D := default_val (PARAM_INFO param) in
  let c := conversion (PARAM_INFO param) in
  let vs := values param Range value selected in
  values param Single_value value selected = [(value * c)%Q] /\
  length vs = 10%nat /\
  (exists v0, head vs = Some v0 /\ (v0 == fst selected * c)%Q) /\
  last vs = Some (snd selected * c)%Q /\
  (forall i a b, (i < 9)%nat -> vs !! i = Some a -> vs !! S i = Some b ->
     (b - a == (snd selected * c - fst selected * c) / 9)%Q) /\
  (D / 10 <= fst selected)%Q /\ (snd selected <= D * 10)%Q.
Proof.
  intros (Hlo & _ & Hhi) D c vs.
  split; [reflexivity|]. split; [reflexivity|]. split; [|split; [|split]].
  - eexists. split; [reflexivity|]. simpl. subst c.
    change (inject_Z (Z.of_nat 0)) with 0%Q. change (inject_Z (Z.of_nat 9)) with 9%Q. field.
  - reflexivity.
  - intros i a b Hi Ha Hb. subst vs. unfold values, linspace in Ha, Hb.
    fold c in Ha, Hb. simpl in Ha, Hb.
    do 9 (destruct i as [|i]; [simpl in Ha, Hb; injection Ha as <-; injection Hb as <-;
                               field|]).
    lia.
  - split; assumption.
Qed.

Lemma values_single_and_range_witness :
  length (values membrane_permeability Range 3 (1, 10)%Q) = 10%nat /\
  last (values membrane_permeability Range 3 (1, 10)%Q) = Some ((10 * (1 # 100000))%Q).
Proof.
  destruct (values_single_and_range membrane_permeability 3 (1, 10)%Q)
    as (_ & Hlen & _ & Hlast & _).
  - unfold slider_returns, min_limit, max_limit. simpl.
    repeat split; apply Qle_bool_imp_le; reflexivity.
  - split; [exact Hlen|exact Hlast].
Defined.

End AppProofs.

(** * Properties of the section reconstruction *)

Module VizuProofs.
Import Vizu Reference.

(** Inversion of a bind in the result monad. *)
Lemma bind_Ok {A B} (m : result A) (f : A -> result B) (b : B) :
  (m ≫= f) = Ok b -> exists a, m = Ok a /\ f a = Ok b.
Proof. destruct m as [a|e]; simpl; [eauto|discriminate]. Qed.

Lemma bind_raises {A B} (m : result A) (f : A -> result B) :
  raises m -> raises (m ≫= f).
Proof. intros [e ->]. exists e. reflexivity. Qed.

Ltac inv_bind H :=
  let a := fresh "a" in
  let Ha := fresh "H" a in
  apply bind_Ok in H as (a & Ha & H).

Section Facts.
Context `{!Externals}.

(** ** Groups *)

(** After the loop, an identifier is either untouched and declared by no
    element, or bound to the name that one of its declarations gives it. *)
Lemma groups_loop_lookup (k : Z) (elems : list Element) :
  forall m m' : gmap Z (option string),
    groups_loop elems m = Ok m' ->
    (m' !! k = m !! k /\ forall g, g ∈ elems -> py_int (get g "id") <> Ok k) \/
    (exists g, g ∈ elems /\ py_int (get g "id") = Ok k /\
               m' !! k = Some (group_name_of g k)).
Proof.
  induction elems as [|g rest IH]; intros m m' Hrun; simpl in Hrun.
  - injection Hrun as <-. left. split; [reflexivity|]. intros g Hg. inversion Hg.
  - inv_bind Hrun. destruct (IH _ _ Hrun) as [[Hsame Hnone]|(g' & Hin & Hid & Hlook)].
    + destruct (decide (a = k)) as [->|Hne].
      * right. exists g. split; [left|]. split; [exact Ha|].
        rewrite Hsame. apply lookup_insert_eq.
      * left. split.
        -- rewrite Hsame. apply lookup_insert_ne. exact Hne.
        -- intros g' Hg'. apply elem_of_cons in Hg' as [->|Hg']; [congruence|auto].
    + right. exists g'. split; [right; exact Hin|]. auto.
Qed.

(** The last declaration of an identifier decides. *)
Lemma groups_loop_last (k : Z) (pre post : list Element) (g : Element) :
  forall m m' : gmap Z (option string),
    groups_loop (pre ++ g :: post) m = Ok m' ->
    py_int (get g "id") = Ok k ->
    (forall g', g' ∈ post -> py_int (get g' "id") <> Ok k) ->
    m' !! k = Some (group_name_of g k).
Proof.
  induction pre as [|p pre IH]; intros m m' Hrun Hid Hpost; simpl in Hrun.
  - rewrite Hid in Hrun. simpl in Hrun.
    destruct (groups_loop_lookup k _ _ _ Hrun) as [[Hsame _]|(g' & Hin & Hid' & _)].
    + rewrite Hsame. apply lookup_insert_eq.
    + exfalso. exact (Hpost g' Hin Hid').
  - inv_bind Hrun. eapply IH; eauto.
Qed.

Lemma groups_loop_raises (elems : list Element) (m : gmap Z (option string)) :
  (exists g, g ∈ elems /\ raises (py_int (get g "id"))) -> raises (groups_loop elems m).
Proof.
  revert m. induction elems as [|g rest IH]; intros m (g' & Hin & Hr).
  - inversion Hin.
  - simpl. apply elem_of_cons in Hin as [->|Hin].
    + apply bind_raises. exact Hr.
    + destruct (py_int (get g "id")) as [z|e]; simpl; [|exists e; reflexivity].
      apply IH. eauto.
Qed.

(** C4 (amended): on every mesh whose group declarations parse, a declared
    group id 4 resolves to "cortex" and a declared group id 3 to
    "endodermis", whatever name the declarations carry; an id 4 or 3 that no
    group element declares resolves to the placeholder unknown_group_4 or
    unknown_group_3. *)
Theorem reserved_group_labels (root : Element) (group_map : gmap Z (option string)) :
  parse_groups root = Ok group_map ->
  ((exists g, g ∈ group_elems root /\ py_int (get g "id") = Ok 4) ->
     resolve_cell_type group_map 4 = Some "cortex") /\
  ((exists g, g ∈ group_elems root /\ py_int (get g "id") = Ok 3) ->
     resolve_cell_type group_map 3 = Some "endodermis") /\
  ((forall g, g ∈ group_elems root -> py_int (get g "id") <> Ok 4) ->
     resolve_cell_type group_map 4 = Some "unknown_group_4") /\
  ((forall g, g ∈ group_elems root -> py_int (get g "id") <> Ok 3) ->
     resolve_cell_type group_map 3 = Some "unknown_group_3").
Proof.
  unfold parse_groups, resolve_cell_type. intros Hrun.
  assert (Hdecl : forall k, (exists g, g ∈ group_elems root /\ py_int (get g "id") = Ok k) ->
                            exists g, group_map !! k = Some (group_name_of g k)).
  { intros k (g & Hin & Hid).
    destruct (groups_loop_lookup k _ _ _ Hrun) as [[_ Hno]|(g' & _ & _ & Hl)].
    - exfalso. exact (Hno g Hin Hid).
    - eauto. }
  assert (Hundecl : forall k, (forall g, g ∈ group_elems root -> py_int (get g "id") <> Ok k) ->
                              group_map !! k = None).
  { intros k Hno.
    destruct (groups_loop_lookup k _ _ _ Hrun) as [[Hsame _]|(g' & Hin & Hid & _)].
    - rewrite Hsame. apply lookup_empty.
    - exfalso. exact (Hno g' Hin Hid). }
  repeat split.
  - intros Hd. destruct (Hdecl 4 Hd) as [g ->]. reflexivity.
  - intros Hd. destruct (Hdecl 3 Hd) as [g ->]. reflexivity.
  - intros Hn. rewrite (Hundecl 4 Hn). reflexivity.
  - intros Hn. rewrite (Hundecl 3 Hn). reflexivity.
Qed.

(** C5 (amended): for a group id other than 3 and 4, on every mesh whose
    group declarations parse, an id that no group element declares resolves
    to the placeholder unknown_group_<id>, and a declared id resolves to the
    name attribute of its last declaration, which is no label at all (None)
    when that element has no name attribute. *)
Theorem other_group_labels (root : Element) (group_map : gmap Z (option string))
    (group_id : Z) :
  parse_groups root = Ok group_map ->
  group_id <> 3 -> group_id <> 4 ->
  ((forall g, g ∈ group_elems root -> py_int (get g "id") <> Ok group_id) ->
     resolve_cell_type group_map group_id
     = Some ("unknown_group_" +:+ pretty group_id)) /\
  (forall pre g post,
     group_elems root = pre ++ g :: post ->
     py_int (get g "id") = Ok group_id ->
     (forall g', g' ∈ post -> py_int (get g' "id") <> Ok group_id) ->
     resolve_cell_type group_map group_id = get g "name").
Proof.
  unfold parse_groups, resolve_cell_type. intros Hrun H3 H4. split.
  - intros Hno.
    destruct (groups_loop_lookup group_id _ _ _ Hrun) as [[Hsame _]|(g & Hin & Hid & _)].
    + rewrite Hsame, lookup_empty. reflexivity.
    + exfalso. exact (Hno g Hin Hid).
  - intros pre g post Hsplit Hid Hpost. rewrite Hsplit in Hrun.
    rewrite (groups_loop_last _ _ _ _ _ _ Hrun Hid Hpost). simpl.
    unfold group_name_of.
    destruct (Z.eqb_spec group_id 4); [contradiction|].
    destruct (Z.eqb_spec group_id 3); [contradiction|]. reflexivity.
Qed.

(** ** Walls *)

Lemma py_float_truthy (o : option string) :
  truthy o = true -> (exists q, py_float o = Ok q) \/ py_float o = Raise ValueError.
Proof.
  destruct o as [s|]; simpl; [|discriminate]. intros _. unfold py_float.
  destruct (float_of_str s); eauto.
Qed.

(** The comprehension can only fail with the [ValueError] of [float]. *)
Lemma points_of_exn (ps : list Element) (e : exn) :
  points_of ps = Raise e -> e = ValueError.
Proof.
  induction ps as [|p rest IH]; simpl; [discriminate|].
  destruct (has_xy p) eqn:Hxy; [|exact IH].
  apply andb_prop in Hxy as [Hx Hy].
  destruct (py_float_truthy _ Hx) as [[x ->]| ->]; simpl; [|congruence].
  destruct (py_float_truthy _ Hy) as [[y ->]| ->]; simpl; [|congruence].
  destruct (points_of rest) as [pts|e'] eqn:Hrest; simpl; [discriminate|].
  intros Heq. injection Heq as <-. apply IH. reflexivity.
Qed.

Lemma points_of_bad (ps : list Element) :
  (exists p, p ∈ ps /\ has_xy p = true /\
             (raises (py_float (get p "x")) \/ raises (py_float (get p "y")))) ->
  points_of ps = Raise ValueError.
Proof.
  intros Hbad. assert (Hr : raises (points_of ps)).
  { induction ps as [|p rest IH]; destruct Hbad as (b & Hin & Hxy & Hb).
    - inversion Hin.
    - simpl. apply elem_of_cons in Hin as [->|Hin].
      + rewrite Hxy. destruct Hb as [Hb|Hb]; [apply bind_raises; exact Hb|].
        destruct (py_float (get p "x")) as [x|e]; simpl; [|exists e; reflexivity].
        apply bind_raises. exact Hb.
      + assert (Hrest : raises (points_of rest)) by (apply IH; eauto).
        destruct (has_xy p); [|exact Hrest].
        destruct (py_float (get p "x")) as [x|e]; simpl; [|exists e; reflexivity].
        destruct (py_float (get p "y")) as [y|e]; simpl; [|exists e; reflexivity].
        apply bind_raises. exact Hrest. }
  destruct Hr as [e He]. rewrite He. f_equal. exact (points_of_exn _ _ He).
Qed.

Lemma points_of_good (ps : list Element) :
  (forall p, p ∈ ps -> has_xy p = true -> exists pt, reads p pt) ->
  exists pts, points_of ps = Ok pts /\ Forall2 reads (List.filter has_xy ps) pts.
Proof.
  induction ps as [|p rest IH]; intros Hgood; simpl.
  - exists []. split; [reflexivity|constructor].
  - destruct IH as (pts & Hpts & Hall).
    { intros q Hq. apply Hgood. right. exact Hq. }
    destruct (has_xy p) eqn:Hxy.
    + destruct (Hgood p (list_elem_of_here _ _) Hxy) as ([x y] & Hx & Hy). simpl in Hx, Hy.
      rewrite Hx, Hy, Hpts. simpl. exists ((x, y) :: pts). split; [reflexivity|].
      constructor; [split; assumption|exact Hall].
    + exists pts. split; assumption.
Qed.

(** C2 (amended): while the walls are read, a point whose x or y attribute is
    absent or empty is left out on its own and the other points of the wall
    are kept, in order; the wall is stored when at least 2 points are kept and
    skipped otherwise, and the loop goes on with the next wall.  A point whose
    x and y are both non-empty but one of them is not a float literal is not
    dropped: the loop raises ValueError. *)
Theorem wall_points_dropped_or_raise (wall_elem points_elem : Element) (wall_id : Z)
    (rest : list Element) (wall_linestrings : gmap Z LineString) :
  py_int (get wall_elem "id") = Ok wall_id ->
  find wall_elem "points" = Some points_elem ->
  let ps := findall points_elem "point" in
  ((forall p, p ∈ ps -> has_xy p = true -> exists pt, reads p pt) ->
     exists points,
       Forall2 reads (List.filter has_xy ps) points /\
       walls_loop (wall_elem :: rest) wall_linestrings
       = walls_loop rest (if (2 <=? length points)%nat
                          then <[wall_id := mkLineString points]> wall_linestrings
                          else wall_linestrings)) /\
  ((exists p, p ∈ ps /\ has_xy p = true /\
              (raises (py_float (get p "x")) \/ raises (py_float (get p "y")))) ->
     walls_loop (wall_elem :: rest) wall_linestrings = Raise ValueError).
Proof.
  intros Hid Hfind ps. simpl. rewrite Hid, Hfind. simpl. split.
  - intros Hgood. destruct (points_of_good ps Hgood) as (pts & Hpts & Hall).
    exists pts. split; [exact Hall|]. fold ps. rewrite Hpts. simpl.
    destruct (length pts) as [|[|n]]; reflexivity.
  - intros Hbad. fold ps. rewrite (points_of_bad ps Hbad). reflexivity.
Qed.

(** ** Failures *)

Lemma walls_loop_raises (elems : list Element) :
  forall m : gmap Z LineString,
    (exists w, w ∈ elems /\ raises (py_int (get w "id"))) -> raises (walls_loop elems m).
Proof.
  induction elems as [|w rest IH]; intros m (b & Hin & Hb).
  - inversion Hin.
  - simpl. apply elem_of_cons in Hin as [->|Hin]; [apply bind_raises; exact Hb|].
    destruct (py_int (get w "id")) as [z|e]; simpl; [|exists e; reflexivity].
    destruct (find w "points") as [pe|]; [|apply IH; eauto].
    destruct (points_of (findall pe "point")) as [pts|e]; simpl; [|exists e; reflexivity].
    destruct (length pts) as [|[|n]]; apply IH; eauto.
Qed.

Lemma cells_loop_raises (gm : gmap Z (option string)) (wl : gmap Z LineString)
    (elems : list Element) :
  forall records : list record,
    (exists c, c ∈ elems /\ raises (py_int (get c "id"))) ->
    raises (cells_loop gm wl elems records).
Proof.
  induction elems as [|c rest IH]; intros records (b & Hin & Hb).
  - inversion Hin.
  - simpl. apply elem_of_cons in Hin as [->|Hin].
    + apply bind_raises. unfold cell_record. apply bind_raises. exact Hb.
    + destruct (cell_record gm wl c) as [r|e]; simpl; [|exists e; reflexivity].
      apply IH. eauto.
Qed.


(** ** The ordered-centroid fallback *)

Lemma float_leb_total (a b : pyfloat) : float_leb a b = false -> float_leb b a = true.
Proof.
  destruct a as [p|[|]|], b as [q|[|]|]; simpl; try reflexivity; try discriminate.
  intros Hle. apply Qle_bool_iff, Qlt_le_weak, Qnot_le_lt.
  intros Hc. apply Qle_bool_iff in Hc. congruence.
Qed.

Lemma insert_key_perm (x : pyfloat * nat) (l : list (pyfloat * nat)) :
  insert_key x l ≡ₚ x :: l.
Proof.
  induction l as [|y l IH]; simpl; [reflexivity|].
  destruct (float_leb (fst y) (fst x)); [|reflexivity].
  rewrite IH. apply perm_swap.
Qed.

Lemma sort_keys_perm (l : list (pyfloat * nat)) : sort_keys l ≡ₚ l.
Proof.
  unfold sort_keys. transitivity (rev l); [|symmetry; apply Permutation_rev].
  induction (rev l) as [|x r IH]; simpl; [reflexivity|].
  rewrite insert_key_perm, IH. reflexivity.
Qed.

Lemma insert_key_sorted (x : pyfloat * nat) (l : list (pyfloat * nat)) :
  Sorted key_le l -> Sorted key_le (insert_key x l).
Proof.
  induction l as [|y l IH]; intros Hs; simpl.
  - repeat constructor.
  - apply Sorted_inv in Hs as [Hs Hhd].
    destruct (float_leb (fst y) (fst x)) eqn:Hle.
    + constructor; [apply IH; exact Hs|].
      destruct l as [|z l]; simpl.
      * constructor. exact Hle.
      * destruct (float_leb (fst z) (fst x)); constructor; [|exact Hle].
        apply HdRel_inv in Hhd. exact Hhd.
    + constructor; [constructor; assumption|]. constructor.
      exact (float_leb_total _ _ Hle).
Qed.

Lemma sort_keys_sorted (l : list (pyfloat * nat)) : Sorted key_le (sort_keys l).
Proof.
  unfold sort_keys. induction (rev l) as [|x r IH]; simpl; [constructor|].
  apply insert_key_sorted. exact IH.
Qed.

(** Keys paired with their row numbers, as [argsort] sees them. *)
Lemma keyed_snd {A} (f : A -> pyfloat) (l : list A) :
  forall s, map snd (combine (map f l) (seq s (length l))) = seq s (length l).
Proof.
  induction l as [|a l IH]; intros s; simpl; [reflexivity|]. rewrite IH. reflexivity.
Qed.

Lemma keyed_fst {A} (f : A -> pyfloat) (d : A) (l : list A) :
  forall s k i, In (k, i) (combine (map f l) (seq s (length l))) ->
                k = f (nth (i - s) l d) /\ (s <= i)%nat.
Proof.
  induction l as [|a l IH]; intros s k i Hin; simpl in Hin; [contradiction|].
  destruct Hin as [Heq|Hin].
  - injection Heq as <- <-. rewrite Nat.sub_diag. split; [reflexivity|lia].
  - apply IH in Hin as [-> Hle]. split; [|lia].
    replace (i - s)%nat with (S (i - S s)) by lia. reflexivity.
Qed.

Lemma rows_of_seq {A} (d : A) (l : list A) :
  forall s, map (fun i => nth (i - s) l d) (seq s (length l)) = l.
Proof.
  induction l as [|a l IH]; intros s; simpl; [reflexivity|].
  rewrite Nat.sub_diag. f_equal. rewrite <- (IH (S s)) at 2.
  apply map_ext_in. intros i Hi. apply in_seq in Hi.
  replace (i - s)%nat with (S (i - S s)) by lia. reflexivity.
Qed.

Lemma order_points_perm (points : list point) : order_points points ≡ₚ points.
Proof.
  unfold order_points, take_rows, argsort, angles_of. rewrite length_map.
  rewrite (Permutation_map _ (Permutation_map snd (sort_keys_perm _))).
  rewrite keyed_snd.
  transitivity (map (fun i => nth (i - 0) points (Finite 0, Finite 0)) (seq 0 (length points))).
  - apply Permutation_refl'. apply map_ext. intros i. rewrite Nat.sub_0_r. reflexivity.
  - rewrite rows_of_seq. reflexivity.
Qed.

Lemma Sorted_key_le_fst (l : list (pyfloat * nat)) : Sorted key_le l -> Sorted float_le (map fst l).
Proof.
  induction 1 as [|x l Hs IH Hhd]; simpl; constructor; [exact IH|].
  destruct Hhd; simpl; constructor; assumption.
Qed.

Lemma order_points_sorted (points : list point) :
  Sorted float_le (map (angle_of points) (order_points points)).
Proof.
  unfold order_points, take_rows, argsort, angles_of. rewrite length_map.
  set (sorted := sort_keys _).
  assert (Hkeys : map (angle_of points)
                    (map (fun i => nth i points (Finite 0, Finite 0)) (map snd sorted))
                  = map fst sorted).
  { rewrite !map_map. apply map_ext_in. intros [k i] Hin. simpl.
    apply (Permutation_in _ (sort_keys_perm _)) in Hin.
    apply (keyed_fst _ (Finite 0, Finite 0)) in Hin as [-> _]. rewrite Nat.sub_0_r. reflexivity. }
  rewrite Hkeys. apply Sorted_key_le_fst, sort_keys_sorted.
Qed.

(** With two points the fallback has no ring to build, whatever the
    libraries compute: the polygon constructor raises. *)
Lemma fallback_of_two_points_raises (cell_type : option string) (l : LineString)
    (ls : list LineString) (p q : point) :
  polygonize (l :: ls) = [] ->
  reconstruct cell_type (l :: ls) [p; q] = Raise ValueError.
Proof.
  intros Hpoly. unfold reconstruct. rewrite Hpoly. unfold order_polygon.
  pose proof (Permutation_length (order_points_perm [p; q])) as Hlen.
  destruct (order_points [p; q]) as [|a [|b [|c r]]]; simpl in Hlen; try lia.
  reflexivity.
Qed.

Lemma forallb_perm {A} (f : A -> bool) (l l' : list A) :
  l ≡ₚ l' -> forallb f l' = true -> forallb f l = true.
Proof.
  intros Hperm Hall. apply forallb_forall. intros x Hx.
  apply (proj1 (forallb_forall f l') Hall). exact (Permutation_in _ Hperm Hx).
Qed.

(** The constructor builds the ring of three or more finite points. *)
Lemma Polygon_of_finite_coords (cs : list point) :
  (3 <= length cs)%nat -> forallb finite_point cs = true ->
  Polygon_of_coords cs = Ok (mkPolygon cs).
Proof.
  intros Hlen Hfin. unfold Polygon_of_coords.
  destruct cs as [|a [|b [|c r]]]; simpl in Hlen; try lia.
  rewrite Hfin. reflexivity.
Qed.

Lemma Polygon_of_coords_Ok (cs : list point) (pg : Polygon) :
  Polygon_of_coords cs = Ok pg -> pg = mkPolygon cs.
Proof.
  unfold Polygon_of_coords. destruct cs as [|a [|b [|c r]]]; try discriminate.
  - intros Heq. injection Heq as <-. reflexivity.
  - destruct (forallb finite_point _); [|destruct (ring_error _)]; try discriminate;
      intros Heq; injection Heq as <-; reflexivity.
Qed.

(** It fails on one or two coordinates, with ValueError, and on a ring with
    a coordinate that is not finite when the library refuses the ring. *)
Lemma Polygon_of_coords_Raise (cs : list point) (e : exn) :
  Polygon_of_coords cs = Raise e ->
  ((length cs = 1%nat \/ length cs = 2%nat) /\ e = ValueError) \/
  ((3 <= length cs)%nat /\ forallb finite_point cs = false /\ ring_error cs = Some e).
Proof.
  unfold Polygon_of_coords. destruct cs as [|a [|b [|c r]]]; try discriminate.
  - intros Heq. injection Heq as <-. left. auto.
  - intros Heq. injection Heq as <-. left. auto.
  - destruct (forallb finite_point _) eqn:Hfin; [discriminate|].
    destruct (ring_error _) as [e'|] eqn:Hring; [|discriminate].
    intros Heq. injection Heq as <-. right. simpl. split; [lia|]. auto.
Qed.

(** C7 (amended): for a cell whose gathered walls give no ring under
    polygonization and contribute at least three points (counted with
    repetition), all with finite coordinates, the record carries the fallback
    tag instead of the group label, and its polygon is made of all the
    contributed points, repeated ones included, sorted by ascending angle
    around their centroid: its vertex count is the number of contributed
    points, not the number of distinct ones. *)
Theorem fallback_polygon_of_cell (group_map : gmap Z (option string))
    (wall_linestrings : gmap Z LineString) (cell_elem : Element) (cell_id group_id : Z)
    (cell_lines : list LineString) (cell_points : list point) :
  py_int (get cell_elem "id") = Ok cell_id ->
  py_int (get cell_elem "group") = Ok group_id ->
  gather (wall_refs cell_elem) wall_linestrings [] [] = Ok (cell_lines, cell_points) ->
  cell_lines <> [] ->
  polygonize cell_lines = [] ->
  (3 <= length cell_points)%nat ->
  forallb finite_point cell_points = true ->
  exists pg,
    cell_record group_map wall_linestrings cell_elem
    = Ok (Some (mkRecord cell_id (Some "fallback") pg)) /\
    shell pg ≡ₚ cell_points /\
    Sorted float_le (map (angle_of cell_points) (shell pg)) /\
    length (shell pg) = length cell_points.
Proof.
  intros Hid Hgid Hgather Hlines Hpoly Hlen Hfin.
  pose proof (order_points_perm cell_points) as Hperm.
  exists (mkPolygon (order_points cell_points)). split; [|split; [|split]].
  - unfold cell_record. rewrite Hid, Hgid. simpl. rewrite Hgather. simpl.
    unfold reconstruct. destruct cell_lines as [|l ls]; [contradiction|].
    rewrite Hpoly. unfold order_polygon.
    destruct cell_points as [|p0 ps0] eqn:Hcp; [simpl in Hlen; lia|]. rewrite <- Hcp in *.
    rewrite Polygon_of_finite_coords.
    + simpl. unfold emit, is_empty. simpl.
      destruct (order_points cell_points) eqn:Ho; [|reflexivity].
      apply Permutation_length in Hperm. simpl in Hperm. lia.
    + rewrite (Permutation_length Hperm). exact Hlen.
    + exact (forallb_perm _ _ _ Hperm Hfin).
  - exact Hperm.
  - apply order_points_sorted.
  - apply Permutation_length. exact Hperm.
Qed.

(** ** The assembled section *)

Lemma cell_record_emits (gm : gmap Z (option string)) (wl : gmap Z LineString)
    (c : Element) (r : record) :
  cell_record gm wl c = Ok (Some r) ->
  py_int (get c "id") = Ok (id_cell r) /\
  is_empty (geometry r) = false /\
  exists lines pts, gather (wall_refs c) wl [] [] = Ok (lines, pts) /\ lines <> [].
Proof.
  unfold cell_record. intros Hrun.
  apply bind_Ok in Hrun as (cid & Hcid & Hrun).
  apply bind_Ok in Hrun as (gid & Hgid & Hrun).
  apply bind_Ok in Hrun as ([lines pts] & Hg & Hrun).
  apply bind_Ok in Hrun as ([opg ty] & Hrec & Hrun). simpl in *.
  injection Hrun as Hemit. unfold emit in Hemit.
  destruct opg as [pg|]; [|discriminate].
  destruct (is_empty pg) eqn:Hempty; [discriminate|]. injection Hemit as <-. simpl.
  split; [exact Hcid|]. split; [exact Hempty|].
  exists lines, pts. split; [exact Hg|].
  intros ->. simpl in Hrec. discriminate.
Qed.

Lemma cell_record_id (gm : gmap Z (option string)) (wl : gmap Z LineString)
    (c : Element) (o : option record) :
  cell_record gm wl c = Ok o -> exists z, py_int (get c "id") = Ok z.
Proof. unfold cell_record. intros Hrun. apply bind_Ok in Hrun as (z & Hz & _). eauto. Qed.

Lemma cells_loop_inv (gm : gmap Z (option string)) (wl : gmap Z LineString)
    (cells : list Element) :
  forall records records' : list record,
    cells_loop gm wl cells records = Ok records' ->
    exists new,
      records' = records ++ new /\
      map (fun r => Ok (id_cell r)) new
        `sublist_of` map (fun c => py_int (get c "id")) cells /\
      Forall (from_cell wl cells) new.
Proof.
  induction cells as [|c rest IH]; intros records records' Hrun; simpl in Hrun.
  - injection Hrun as <-. exists []. rewrite app_nil_r. repeat split; constructor.
  - apply bind_Ok in Hrun as (o & Hc & Hrun).
    apply IH in Hrun as (new & -> & Hsub & Hall).
    assert (Hall' : Forall (from_cell wl (c :: rest)) new).
    { eapply Forall_impl; [exact Hall|]. intros r (He & c' & l & p & Hin & Hrest).
      split; [exact He|]. exists c', l, p. split; [right; exact Hin|exact Hrest]. }
    destruct o as [r|].
    + destruct (cell_record_emits _ _ _ _ Hc) as (Hid & Hempty & lines & pts & Hg & Hne).
      exists (r :: new). split; [rewrite <- app_assoc; reflexivity|]. split.
      * simpl. rewrite Hid. constructor. exact Hsub.
      * constructor; [|exact Hall']. split; [exact Hempty|].
        exists c, lines, pts. split; [left|]. auto.
    + exists new. split; [reflexivity|]. split; [|exact Hall'].
      simpl. constructor. exact Hsub.
Qed.

Lemma NoDup_map_Ok (ids : list Z) : NoDup (map (@Ok Z) ids) -> NoDup ids.
Proof.
  induction ids as [|z ids IH]; intros Hnd; [constructor|].
  simpl in Hnd. apply NoDup_cons in Hnd as [Hnotin Hnd]. constructor; [|auto].
  intros Hin. apply Hnotin. apply list_elem_of_In, in_map, list_elem_of_In. exact Hin.
Qed.

(** C10 (amended): whenever get_root_section returns a section, which may be
    empty, no entry carries a null or empty polygon, every entry comes from a
    cell element with at least one contributing wall (cells without one are
    omitted), and the cell ids of the entries are unique when the ids that the
    cell elements declare are distinct.  A polygon of zero area is not
    excluded. *)
Theorem section_entries (xml_file_path : string) (records : list record) :
  get_root_section xml_file_path = Ok records ->
  Forall (fun r => is_empty (geometry r) = false) records /\
  Forall (fun r => exists root wl,
            ET_parse xml_file_path = Ok root /\ parse_walls root = Ok wl /\
            from_cell wl (cell_elems root) r) records /\
  ((forall root, ET_parse xml_file_path = Ok root -> NoDup (cell_ids root)) ->
     NoDup (map id_cell records)).
Proof.
  unfold get_root_section. intros Hrun.
  destruct (ET_parse xml_file_path) as [root|e] eqn:Hparse.
  - unfold root_section in Hrun.
    apply bind_Ok in Hrun as (gm & Hg & Hrun).
    apply bind_Ok in Hrun as (wl & Hw & Hrun).
    apply bind_Ok in Hrun as (recs & Hcells & Hrun).
    unfold GeoDataFrame in Hrun. destruct (frame_error recs); [discriminate|].
    injection Hrun as <-.
    apply cells_loop_inv in Hcells as (new & -> & Hsub & Hall). simpl.
    split; [|split].
    + eapply Forall_impl; [exact Hall|]. intros r [He _]. exact He.
    + eapply Forall_impl; [exact Hall|]. intros r Hr. exists root, wl. auto.
    + intros Hnd. specialize (Hnd root eq_refl). unfold cell_ids in Hnd.
      apply NoDup_map_Ok. rewrite map_map. eapply sublist_NoDup; eassumption.
  - injection Hrun as <-. split; [constructor|]. split; [constructor|].
    intros _. constructor.
Qed.

End Facts.

(** ** The claims on concrete meshes *)

Import Examples.

(** C2 (as stated) fails: wall 1 keeps two valid points beside the one whose
    x is not a number, and wall 2 is well formed, yet the non-numeric x makes
    the whole call raise. *)
Lemma bad_coordinate_raises :
  @get_root_section (on_disk mesh_bad_coordinate) "mesh.xml" = Raise ValueError.
Proof. vm_compute. reflexivity. Qed.

Lemma wall_points_dropped_or_raise_witness :
  exists points,
    length points = 2%nat /\
    @walls_loop (on_disk mesh_triangle) [empty_x_wall] ∅
    = Ok (<[1 := mkLineString points]> ∅).
Proof.
  destruct (@wall_points_dropped_or_raise (on_disk mesh_triangle) empty_x_wall
              (elem "points" [] [point_elem "" "0"; point_elem "1" "0"; point_elem "2" "0"])
              1 [] ∅) as [Hgood _].
  - vm_compute. reflexivity.
  - vm_compute. reflexivity.
  - destruct Hgood as (points & Hreads & Hloop).
    + intros p Hin Hxy. apply list_elem_of_In in Hin.
      destruct Hin as [<-|[<-|[<-|[]]]].
      * vm_compute in Hxy. discriminate.
      * exists (Finite 1, Finite 0). split; vm_compute; reflexivity.
      * exists (Finite 2, Finite 0). split; vm_compute; reflexivity.
    + exists points. apply Forall2_length in Hreads.
      assert (Hlen : length points = 2%nat) by (rewrite <- Hreads; vm_compute; reflexivity).
      split; [exact Hlen|]. rewrite Hloop, Hlen. reflexivity.
Defined.



(** C4 (as stated) fails: a cell of group 4 in a mesh that declares no group
    is labelled unknown_group_4, not cortex. *)
Lemma undeclared_group_4_is_not_cortex :
  exists r,
    @get_root_section (on_disk mesh_triangle) "mesh.xml" = Ok [r] /\
    type r = Some "unknown_group_4".
Proof. eexists. split; [vm_compute; reflexivity|reflexivity]. Qed.

Lemma reserved_group_labels_witness :
  exists group_map,
    @parse_groups (on_disk mesh_triangle_groups) mesh_triangle_groups = Ok group_map /\
    resolve_cell_type group_map 4 = Some "cortex" /\
    resolve_cell_type group_map 3 = Some "endodermis".
Proof.
  assert (Hp : exists gm, @parse_groups (on_disk mesh_triangle_groups) mesh_triangle_groups
                          = Ok gm) by (eexists; vm_compute; reflexivity).
  destruct Hp as [gm Hp]. exists gm. split; [exact Hp|].
  destruct (@reserved_group_labels (on_disk mesh_triangle_groups) _ _ Hp) as (H4 & H3 & _).
  split.
  - apply H4. exists (elem "group" [("id", "4"); ("name", "stele")] []).
    split; [apply list_elem_of_In; vm_compute; left; reflexivity|vm_compute; reflexivity].
  - apply H3. exists (elem "group" [("id", "3"); ("name", "pith")] []).
    split; [apply list_elem_of_In; vm_compute; right; left; reflexivity
           |vm_compute; reflexivity].
Defined.

(** C5 (as stated) fails: a cell of group 7, declared without a name, gets
    no label at all (Python's None) instead of a placeholder string. *)
Lemma nameless_group_gives_no_label :
  exists r,
    @get_root_section (on_disk mesh_nameless_group) "mesh.xml" = Ok [r] /\
    type r = None.
Proof. eexists. split; [vm_compute; reflexivity|reflexivity]. Qed.

Lemma other_group_labels_witness :
  exists group_map,
    @parse_groups (on_disk mesh_triangle_groups) mesh_triangle_groups = Ok group_map /\
    resolve_cell_type group_map 7 = Some "xylem" /\
    resolve_cell_type group_map 9 = Some "unknown_group_9".
Proof.
  assert (Hp : exists gm, @parse_groups (on_disk mesh_triangle_groups) mesh_triangle_groups
                          = Ok gm) by (eexists; vm_compute; reflexivity).
  destruct Hp as [gm Hp]. exists gm. split; [exact Hp|]. split.
  - destruct (@other_group_labels (on_disk mesh_triangle_groups) _ _ 7 Hp) as [_ Hdecl];
      [lia|lia|].
    rewrite (Hdecl [elem "group" [("id", "4"); ("name", "stele")] [];
                    elem "group" [("id", "3"); ("name", "pith")] []]
                   (elem "group" [("id", "7"); ("name", "xylem")] []) []).
    + vm_compute. reflexivity.
    + vm_compute. reflexivity.
    + vm_compute. reflexivity.
    + intros g Hg. inversion Hg.
  - destruct (@other_group_labels (on_disk mesh_triangle_groups) _ _ 9 Hp) as [Hundecl _];
      [lia|lia|].
    rewrite Hundecl; [vm_compute; reflexivity|].
    intros g Hg. apply list_elem_of_In in Hg.
    destruct Hg as [<-|[<-|[<-|[]]]]; vm_compute; discriminate.
Defined.

(** C6: on the mesh with a single open 2-point wall referenced by cell 2 of
    the undeclared group 9, the reconstruction does not complete: the
    fallback hands two coordinates to the polygon constructor, which raises
    ValueError, and get_root_section lets it through. *)
Theorem single_open_wall_raises :
  @get_root_section (on_disk mesh_single_open_wall) "mesh.xml" = Raise ValueError.
Proof. vm_compute. reflexivity. Qed.

(** C7 (as stated) fails: two open walls that share the point (1, 0)
    contribute three distinct points, and the fallback polygon has four
    vertices. *)
Lemma fallback_repeats_shared_point :
  exists wl lines pts r,
    @parse_walls (on_disk mesh_open_polyline) mesh_open_polyline = Ok wl /\
    @gather (on_disk mesh_open_polyline) (wall_refs open_cell) wl [] [] = Ok (lines, pts) /\
    @get_root_section (on_disk mesh_open_polyline) "mesh.xml" = Ok [r] /\
    type r = Some "fallback" /\
    length (distinct_points pts) = 3%nat /\
    length (shell (geometry r)) = 4%nat.
Proof.
  do 4 eexists.
  split; [vm_compute; reflexivity|].
  split; [vm_compute; reflexivity|].
  split; [vm_compute; reflexivity|].
  split; [reflexivity|]. split; vm_compute; reflexivity.
Qed.

Lemma fallback_polygon_of_cell_witness :
  exists wl pg,
    @cell_record (on_disk mesh_open_polyline) ∅ wl open_cell
    = Ok (Some (mkRecord 5 (Some "fallback") pg)) /\
    length (shell pg) = 4%nat.
Proof.
  exists (<[2 := mkLineString (finite_points [(1, 0); (1, 1)]%Q)]>
            (<[1 := mkLineString (finite_points [(0, 0); (1, 0)]%Q)]> ∅)).
  destruct (@fallback_polygon_of_cell (on_disk mesh_open_polyline) ∅
              (<[2 := mkLineString (finite_points [(1, 0); (1, 1)]%Q)]>
                 (<[1 := mkLineString (finite_points [(0, 0); (1, 0)]%Q)]> ∅))
              open_cell 5 4
              [mkLineString (finite_points [(0, 0); (1, 0)]%Q); mkLineString (finite_points [(1, 0); (1, 1)]%Q)]
              (finite_points [(0, 0); (1, 0); (1, 0); (1, 1)]%Q))
    as (pg & Hrec & _ & _ & Hlen).
  - vm_compute. reflexivity.
  - vm_compute. reflexivity.
  - vm_compute. reflexivity.
  - discriminate.
  - vm_compute. reflexivity.
  - simpl. lia.
  - reflexivity.
  - exists pg. split; [exact Hrec|exact Hlen].
Defined.

(** C10 (as stated) fails: two walls on one straight line give the cell a
    fallback polygon of zero area, and the cell is in the section. *)
Lemma collinear_cell_has_zero_area :
  exists r a,
    @get_root_section (on_disk mesh_collinear) "mesh.xml" = Ok [r] /\
    area (geometry r) = Some a /\ (a == 0)%Q.
Proof.
  eexists _, _. split; [vm_compute; reflexivity|].
  split; [vm_compute; reflexivity|]. vm_compute. reflexivity.
Qed.

Lemma section_entries_witness :
  exists records,
    @get_root_section (on_disk mesh_triangle) "mesh.xml" = Ok records /\
    Forall (fun r => is_empty (geometry r) = false) records /\
    NoDup (map id_cell records).
Proof.
  assert (Hp : exists rs, @get_root_section (on_disk mesh_triangle) "mesh.xml" = Ok rs)
    by (eexists; vm_compute; reflexivity).
  destruct Hp as [rs Hp]. exists rs. split; [exact Hp|].
  destruct (@section_entries (on_disk mesh_triangle) _ _ Hp) as (Hne & _ & Hnd).
  split; [exact Hne|]. apply Hnd.
  intros root Hroot. simpl in Hroot. injection Hroot as <-.
  vm_compute. apply NoDup_singleton.
Defined.

End VizuProofs.

(** * Further properties of the section reconstruction *)

Module VizuExtra.
Import Vizu Reference VizuProofs.

Section Facts.
Context `{!Externals}.

(** ** The wall index *)

(** One iteration of the loop over the walls either leaves the index as it
    is or stores the polyline that the element declares. *)
Lemma walls_loop_step (w : Element) (rest : list Element) (m m' : gmap Z LineString) :
  walls_loop (w :: rest) m = Ok m' ->
  exists k m1,
    py_int (get w "id") = Ok k /\ walls_loop rest m1 = Ok m' /\
    (m1 = m \/ exists pts, wall_declares w k pts /\ m1 = <[k := mkLineString pts]> m).
Proof.
  cbn [walls_loop]. intros Hrun. apply bind_Ok in Hrun as (k & Hk & Hrun). exists k.
  destruct (find w "points") as [pe|] eqn:Hfind; [|exists m; auto].
  apply bind_Ok in Hrun as (pts & Hpts & Hrun).
  destruct (2 <=? length pts)%nat eqn:Hlen; [|exists m; auto].
  exists (<[k := mkLineString pts]> m). split; [exact Hk|]. split; [exact Hrun|].
  right. exists pts. split; [|reflexivity]. split; [exact Hk|].
  exists pe. apply Nat.leb_le in Hlen. auto.
Qed.

Lemma walls_loop_declares (w : Element) (rest : list Element) (m : gmap Z LineString)
    (k : Z) (pts : list point) :
  wall_declares w k pts ->
  walls_loop (w :: rest) m = walls_loop rest (<[k := mkLineString pts]> m).
Proof.
  intros (Hk & pe & Hfind & Hpts & Hlen). cbn [walls_loop].
  rewrite Hk. cbn [mbind result_bind]. rewrite Hfind, Hpts. cbn [mbind result_bind].
  apply Nat.leb_le in Hlen. rewrite Hlen. reflexivity.
Qed.

Lemma walls_loop_sound (elems : list Element) :
  forall (m m' : gmap Z LineString),
    walls_loop elems m = Ok m' ->
    forall k ls, m' !! k = Some ls ->
      m !! k = Some ls \/ exists w, w ∈ elems /\ wall_declares w k (coords ls).
Proof.
  induction elems as [|w rest IH]; intros m m' Hrun k ls Hls.
  - simpl in Hrun. injection Hrun as <-. left. exact Hls.
  - apply walls_loop_step in Hrun as (k0 & m1 & Hk0 & Hrun & Hm1).
    destruct (IH _ _ Hrun _ _ Hls) as [Hin|(w' & Hin & Hdecl)].
    + destruct Hm1 as [->|(pts & Hdecl & ->)]; [left; exact Hin|].
      destruct (decide (k0 = k)) as [->|Hne].
      * rewrite lookup_insert_eq in Hin. injection Hin as <-.
        right. exists w. split; [left|exact Hdecl].
      * rewrite lookup_insert_ne in Hin by exact Hne. left. exact Hin.
    + right. exists w'. split; [right; exact Hin|exact Hdecl].
Qed.

Lemma walls_loop_other (k : Z) (elems : list Element) :
  forall (m m' : gmap Z LineString),
    walls_loop elems m = Ok m' ->
    (forall w, w ∈ elems -> py_int (get w "id") <> Ok k) ->
    m' !! k = m !! k.
Proof.
  induction elems as [|w rest IH]; intros m m' Hrun Hno.
  - simpl in Hrun. injection Hrun as <-. reflexivity.
  - apply walls_loop_step in Hrun as (k0 & m1 & Hk0 & Hrun & Hm1).
    rewrite (IH _ _ Hrun) by (intros w' Hw'; apply Hno; right; exact Hw').
    destruct Hm1 as [->|(pts & _ & ->)]; [reflexivity|].
    apply lookup_insert_ne. intros ->. exact (Hno w (list_elem_of_here _ _) Hk0).
Qed.

(** Every polyline of the index has at least two points. *)
Lemma parse_walls_two_points (root : Element) (wl : gmap Z LineString) :
  parse_walls root = Ok wl ->
  forall k ls, wl !! k = Some ls -> (2 <= length (coords ls))%nat.
Proof.
  intros Hrun k ls Hls.
  destruct (walls_loop_sound _ _ _ Hrun _ _ Hls) as [Hin|(w & _ & _ & pe & _ & _ & Hlen)].
  - rewrite lookup_empty in Hin. discriminate.
  - exact Hlen.
Qed.

(** X1: every entry of the wall index comes from a wall element of the mesh
    with that id, holds exactly the points kept from that element, and has at
    least two points. *)
Theorem wall_index_sound (root : Element) (wall_linestrings : gmap Z LineString)
    (wall_id : Z) (wall : LineString) :
  parse_walls root = Ok wall_linestrings ->
  wall_linestrings !! wall_id = Some wall ->
  (exists w, w ∈ wall_elems root /\ wall_declares w wall_id (coords wall)) /\
  (2 <= length (coords wall))%nat.
Proof.
  intros Hrun Hls.
  destruct (walls_loop_sound _ _ _ Hrun _ _ Hls) as [Hin|(w & Hw & Hdecl)].
  - rewrite lookup_empty in Hin. discriminate.
  - split; [exists w; auto|]. destruct Hdecl as (_ & pe & _ & _ & Hlen). exact Hlen.
Qed.

(** X2: when several wall elements carry the same id, the index keeps the
    polyline of the last one. *)
Theorem wall_last_declaration_wins (root : Element) (wall_linestrings : gmap Z LineString)
    (pre post : list Element) (w : Element) (wall_id : Z) (pts : list point) :
  parse_walls root = Ok wall_linestrings ->
  wall_elems root = pre ++ w :: post ->
  wall_declares w wall_id pts ->
  (forall w', w' ∈ post -> py_int (get w' "id") <> Ok wall_id) ->
  wall_linestrings !! wall_id = Some (mkLineString pts).
Proof.
  unfold parse_walls. intros Hrun Hsplit Hdecl Hpost. rewrite Hsplit in Hrun.
  clear Hsplit. revert Hrun. generalize (∅ : gmap Z LineString).
  induction pre as [|p pre IH]; intros m Hrun.
  - simpl app in Hrun. rewrite (walls_loop_declares _ _ _ _ _ Hdecl) in Hrun.
    rewrite (walls_loop_other wall_id _ _ _ Hrun Hpost). apply lookup_insert_eq.
  - simpl app in Hrun. apply walls_loop_step in Hrun as (k0 & m1 & _ & Hrun & _).
    exact (IH _ Hrun).
Qed.

(** ** The walls of a cell *)

Lemma gather_inv (wl : gmap Z LineString) (refs : list Element) :
  forall (L L' : list LineString) (P P' : list point),
    gather refs wl L P = Ok (L', P') ->
    exists known,
      L' = L ++ known /\ P' = P ++ concat (map coords known) /\
      Forall (fun l => exists k, wl !! k = Some l) known.
Proof.
  induction refs as [|r rest IH]; intros L L' P P' Hrun; simpl in Hrun.
  - injection Hrun as <- <-. exists []. simpl. rewrite !app_nil_r. auto.
  - apply bind_Ok in Hrun as (k & Hk & Hrun).
    destruct (wl !! k) as [wall|] eqn:Hwall.
    + apply IH in Hrun as (known & -> & -> & Hall).
      exists (wall :: known). simpl. rewrite <- !app_assoc. repeat split; auto.
      constructor; eauto.
    + apply IH in Hrun. exact Hrun.
Qed.

(** X3: gathering the walls of a cell keeps, in reference order and with
    repetitions, the walls whose id is in the index, skips the others
    silently, and collects the points of the kept walls end to end. *)
Theorem gather_known_walls (wall_linestrings : gmap Z LineString) (refs : list Element)
    (ids : list Z) :
  Forall2 (fun r z => py_int (get r "id") = Ok z) refs ids ->
  let known := omap (fun z => wall_linestrings !! z) ids in
  gather refs wall_linestrings [] [] = Ok (known, concat (map coords known)).
Proof.
  intros Hids known. subst known.
  enough (Hgen : forall L P,
             gather refs wall_linestrings L P
             = Ok (L ++ omap (fun z => wall_linestrings !! z) ids,
                   P ++ concat (map coords (omap (fun z => wall_linestrings !! z) ids))))
    by exact (Hgen [] []).
  induction Hids as [|r z refs ids Hr _ IH]; intros L P; simpl.
  - rewrite !app_nil_r. reflexivity.
  - rewrite Hr. simpl. destruct (wall_linestrings !! z) as [wall|]; simpl.
    + rewrite IH, <- !app_assoc. reflexivity.
    + apply IH.
Qed.

(** ** The records *)

(** X4: every record of a cell is of one of two kinds: exact, with the first
    ring of the polygonization and the label resolved from the group; or
    fallback, with the tag "fallback" and a polygon whose vertices are the
    gathered points in some order. *)
Theorem record_exact_or_fallback (group_map : gmap Z (option string))
    (wall_linestrings : gmap Z LineString) (cell_elem : Element) (r : record) :
  cell_record group_map wall_linestrings cell_elem = Ok (Some r) ->
  exists group_id cell_lines cell_points,
    py_int (get cell_elem "group") = Ok group_id /\
    gather (wall_refs cell_elem) wall_linestrings [] [] = Ok (cell_lines, cell_points) /\
    ((exists others, polygonize cell_lines = geometry r :: others /\
                     type r = resolve_cell_type group_map group_id) \/
     (polygonize cell_lines = [] /\ type r = Some "fallback" /\
      shell (geometry r) ≡ₚ cell_points)).
Proof.
  unfold cell_record. intros Hrun.
  apply bind_Ok in Hrun as (cid & Hcid & Hrun).
  apply bind_Ok in Hrun as (gid & Hgid & Hrun).
  apply bind_Ok in Hrun as ([lines pts] & Hg & Hrun).
  apply bind_Ok in Hrun as ([opg ty] & Hrec & Hrun). simpl in *.
  injection Hrun as Hemit. unfold emit in Hemit.
  destruct opg as [pg|]; [|discriminate].
  destruct (is_empty pg); [discriminate|]. injection Hemit as <-. simpl.
  exists gid, lines, pts. split; [exact Hgid|]. split; [exact Hg|].
  unfold reconstruct in Hrec. destruct lines as [|l ls]; [discriminate|].
  destruct (polygonize (l :: ls)) as [|pg0 others].
  - right. apply bind_Ok in Hrec as (pg1 & Hpg1 & Hrec). injection Hrec as <- <-.
    split; [reflexivity|]. split; [reflexivity|].
    unfold order_polygon in Hpg1. destruct pts as [|p0 ps0] eqn:Hp; [discriminate|].
    rewrite <- Hp in *. apply Polygon_of_coords_Ok in Hpg1 as ->.
    apply order_points_perm.
  - left. injection Hrec as <- <-. eauto.
Qed.

(** X5: the section has at most one record per cell element, and the records
    follow the order of the cell elements in the mesh. *)
Theorem records_follow_cells (xml_file_path : string) (root : Element)
    (records : list record) :
  ET_parse xml_file_path = Ok root ->
  get_root_section xml_file_path = Ok records ->
  map (fun r => Ok (id_cell r)) records `sublist_of` cell_ids root /\
  (length records <= length (cell_elems root))%nat.
Proof.
  unfold get_root_section. intros -> Hrun. unfold root_section in Hrun.
  apply bind_Ok in Hrun as (gm & _ & Hrun).
  apply bind_Ok in Hrun as (wl & _ & Hrun).
  apply bind_Ok in Hrun as (recs & Hcells & Hrun).
  unfold GeoDataFrame in Hrun. destruct (frame_error recs); [discriminate|].
  injection Hrun as <-.
  apply cells_loop_inv in Hcells as (new & -> & Hsub & _). simpl.
  split; [exact Hsub|]. apply sublist_length in Hsub.
  unfold cell_ids in Hsub. rewrite !length_map in Hsub. exact Hsub.
Qed.

(** ** Exceptions *)

Lemma bind_Raise {A B} (m : result A) (f : A -> result B) (e : exn) :
  (m ≫= f) = Raise e -> m = Raise e \/ exists a, m = Ok a /\ f a = Raise e.
Proof.
  destruct m as [a|e']; simpl; intros Hrun; [right; exists a; auto|left; congruence].
Qed.

Lemma py_int_exn (o : option string) (e : exn) :
  py_int o = Raise e -> e = ValueError \/ e = TypeError.
Proof.
  unfold py_int. destruct o as [s|]; [destruct (int_of_str s)|]; intros Heq;
    try discriminate; injection Heq as <-; auto.
Qed.

Lemma groups_loop_exn (elems : list Element) :
  forall (m : gmap Z (option string)) (e : exn),
    groups_loop elems m = Raise e -> e = ValueError \/ e = TypeError.
Proof.
  induction elems as [|g rest IH]; intros m e Hrun; simpl in Hrun; [discriminate|].
  apply bind_Raise in Hrun as [Hr|(k & _ & Hr)]; [exact (py_int_exn _ _ Hr)|eauto].
Qed.

Lemma walls_loop_exn (elems : list Element) :
  forall (m : gmap Z LineString) (e : exn),
    walls_loop elems m = Raise e -> e = ValueError \/ e = TypeError.
Proof.
  induction elems as [|w rest IH]; intros m e Hrun; cbn [walls_loop] in Hrun; [discriminate|].
  apply bind_Raise in Hrun as [Hr|(k & _ & Hr)]; [exact (py_int_exn _ _ Hr)|].
  destruct (find w "points") as [pe|]; [|eauto].
  apply bind_Raise in Hr as [Hr|(pts & _ & Hr)].
  - left. exact (points_of_exn _ _ Hr).
  - destruct (2 <=? length pts)%nat; eauto.
Qed.

Lemma gather_exn (wl : gmap Z LineString) (refs : list Element) :
  forall (L : list LineString) (P : list point) (e : exn),
    gather refs wl L P = Raise e -> e = ValueError \/ e = TypeError.
Proof.
  induction refs as [|r rest IH]; intros L P e Hrun; simpl in Hrun; [discriminate|].
  apply bind_Raise in Hrun as [Hr|(k & _ & Hr)]; [exact (py_int_exn _ _ Hr)|].
  destruct (wl !! k); eauto.
Qed.

(** The fallback can only fail in the polygon constructor when it is given
    at least one point. *)
Lemma reconstruct_exn (cell_type : option string) (lines : list LineString)
    (pts : list point) (e : exn) :
  reconstruct cell_type lines pts = Raise e -> pts <> [] ->
  ((length pts = 1%nat \/ length pts = 2%nat) /\ e = ValueError) \/
  ((3 <= length pts)%nat /\ forallb finite_point pts = false /\
   exists ring, forallb finite_point ring = false /\ ring_error ring = Some e).
Proof.
  unfold reconstruct. destruct lines as [|l ls]; [discriminate|].
  destruct (polygonize (l :: ls)); [|discriminate].
  intros Hrun Hne. apply bind_Raise in Hrun as [Hr|(pg & _ & Hr)]; [|discriminate].
  unfold order_polygon in Hr. destruct pts as [|p0 ps0] eqn:Hp; [contradiction|].
  rewrite <- Hp in *. pose proof (order_points_perm pts) as Hperm.
  rewrite <- (Permutation_length Hperm).
  destruct (Polygon_of_coords_Raise _ _ Hr) as [Hshort|(Hlen & Hfin & Hring)]; [left; exact Hshort|].
  right. split; [exact Hlen|]. split; [|eauto].
  destruct (forallb finite_point pts) eqn:Hpts; [|reflexivity].
  rewrite (forallb_perm _ _ _ Hperm Hpts) in Hfin. discriminate.
Qed.

(** With polylines of at least two points, a cell that keeps a wall has points. *)
Lemma gathered_points (wl : gmap Z LineString) (refs : list Element)
    (lines : list LineString) (pts : list point) :
  (forall k ls, wl !! k = Some ls -> (2 <= length (coords ls))%nat) ->
  gather refs wl [] [] = Ok (lines, pts) ->
  pts = concat (map coords lines) /\
  Forall (fun l => (2 <= length (coords l))%nat) lines.
Proof.
  intros Hwl Hg. apply gather_inv in Hg as (known & -> & -> & Hall). simpl.
  split; [reflexivity|]. eapply Forall_impl; [exact Hall|].
  intros l [k Hk]. exact (Hwl _ _ Hk).
Qed.

Lemma concat_two_points (lines : list LineString) :
  Forall (fun l => (2 <= length (coords l))%nat) lines ->
  (2 * length lines <= length (concat (map coords lines)))%nat.
Proof.
  induction 1 as [|l ls Hl _ IH]; simpl; [lia|]. rewrite length_app. lia.
Qed.

Lemma cell_record_exn (gm : gmap Z (option string)) (wl : gmap Z LineString)
    (c : Element) (e : exn) :
  (forall k ls, wl !! k = Some ls -> (2 <= length (coords ls))%nat) ->
  cell_record gm wl c = Raise e ->
  e = ValueError \/ e = TypeError \/
  exists ring, forallb finite_point ring = false /\ ring_error ring = Some e.
Proof.
  intros Hwl. unfold cell_record. intros Hrun.
  apply bind_Raise in Hrun as [Hr|(cid & _ & Hrun)].
  { destruct (py_int_exn _ _ Hr); auto. }
  apply bind_Raise in Hrun as [Hr|(gid & _ & Hrun)].
  { destruct (py_int_exn _ _ Hr); auto. }
  apply bind_Raise in Hrun as [Hr|([lines pts] & Hg & Hrun)].
  { destruct (gather_exn _ _ _ _ _ Hr); auto. }
  apply bind_Raise in Hrun as [Hr|(pt & _ & Hrun)]; [|discriminate]. simpl in Hr.
  destruct lines as [|l ls]; [discriminate|].
  destruct (reconstruct_exn _ _ _ _ Hr) as [[_ ->]|(_ & _ & Hring)]; auto.
  destruct (gathered_points _ _ _ _ Hwl Hg) as [-> Hall].
  apply concat_two_points in Hall. intros Hnil. rewrite Hnil in Hall. simpl in Hall. lia.
Qed.

Lemma cells_loop_exn (gm : gmap Z (option string)) (wl : gmap Z LineString)
    (cells : list Element) :
  (forall k ls, wl !! k = Some ls -> (2 <= length (coords ls))%nat) ->
  forall (records : list record) (e : exn),
    cells_loop gm wl cells records = Raise e ->
    e = ValueError \/ e = TypeError \/
    exists ring, forallb finite_point ring = false /\ ring_error ring = Some e.
Proof.
  intros Hwl. induction cells as [|c rest IH]; intros records e Hrun; simpl in Hrun;
    [discriminate|].
  apply bind_Raise in Hrun as [Hr|(o & _ & Hr)]; [exact (cell_record_exn _ _ _ _ Hwl Hr)|eauto].
Qed.

(** X6: whatever the mesh, an exception that leaves get_root_section is a
    ValueError or a TypeError (a malformed number, a missing attribute, a
    polygon of fewer than three points), or the exception with which the
    geometry library refuses a ring that has an infinite or NaN coordinate,
    or one raised while the frame is built.  In particular the fallback is
    never reached with no point at all. *)
Theorem exceptions_of_get_root_section (xml_file_path : string) (e : exn) :
  get_root_section xml_file_path = Raise e ->
  e = ValueError \/ e = TypeError \/
  (exists ring, forallb finite_point ring = false /\ ring_error ring = Some e) \/
  (exists records, frame_error records = Some e).
Proof.
  unfold get_root_section. destruct (ET_parse xml_file_path) as [root|e0]; [|discriminate].
  unfold root_section. intros Hrun.
  apply bind_Raise in Hrun as [Hr|(gm & _ & Hrun)].
  { destruct (groups_loop_exn _ _ _ Hr); auto. }
  apply bind_Raise in Hrun as [Hr|(wl & Hw & Hrun)].
  { destruct (walls_loop_exn _ _ _ Hr); auto. }
  apply bind_Raise in Hrun as [Hr|(recs & _ & Hrun)].
  { destruct (cells_loop_exn _ _ _ (parse_walls_two_points _ _ Hw) _ _ Hr) as [?|[?|?]]; auto. }
  right. right. right. exists recs. unfold GeoDataFrame in Hrun.
  destruct (frame_error recs) as [e1|]; [|discriminate]. congruence.
Qed.

(** X7: on the walls of a parsed mesh, for a cell whose gathered points all
    have finite coordinates and whose walls give no ring, the fallback fails
    exactly when the cell keeps a single wall and that wall has two points; it
    then fails with ValueError. *)
Theorem fallback_fails_on_single_two_point_wall (root : Element)
    (wall_linestrings : gmap Z LineString) (refs : list Element)
    (cell_lines : list LineString) (cell_points : list point) (cell_type : option string) :
  parse_walls root = Ok wall_linestrings ->
  gather refs wall_linestrings [] [] = Ok (cell_lines, cell_points) ->
  cell_lines <> [] ->
  polygonize cell_lines = [] ->
  forallb finite_point cell_points = true ->
  (raises (reconstruct cell_type cell_lines cell_points) <->
   exists wall, cell_lines = [wall] /\ length (coords wall) = 2%nat) /\
  (forall e, reconstruct cell_type cell_lines cell_points = Raise e -> e = ValueError).
Proof.
  intros Hw Hg Hne Hpoly Hfin.
  destruct (gathered_points _ _ _ _ (parse_walls_two_points _ _ Hw) Hg) as [Hpts Hall].
  pose proof (concat_two_points _ Hall) as Hlen. rewrite <- Hpts in Hlen.
  assert (Hpos : cell_points <> []).
  { intros Hnil. rewrite Hnil in Hlen. destruct cell_lines; [contradiction|simpl in Hlen; lia]. }
  assert (Hexn : forall e, reconstruct cell_type cell_lines cell_points = Raise e ->
                           length cell_points = 2%nat /\ e = ValueError).
  { intros e He. destruct (reconstruct_exn _ _ _ _ He Hpos) as [[[H1|H2] ->]|(_ & Hnf & _)].
    - destruct cell_lines; [contradiction|simpl in Hlen; lia].
    - auto.
    - congruence. }
  split; [|intros e He; exact (proj2 (Hexn e He))].
  assert (Hsingle : length cell_points = 2%nat <->
                    exists wall, cell_lines = [wall] /\ length (coords wall) = 2%nat).
  { rewrite Hpts. split.
    - intros H2. destruct cell_lines as [|a [|b r]]; [contradiction| |].
      + exists a. split; [reflexivity|]. simpl in H2. rewrite app_nil_r in H2. exact H2.
      + exfalso. simpl in Hlen. rewrite Hpts in Hlen. rewrite H2 in Hlen. lia.
    - intros (wall & -> & H2). simpl. rewrite app_nil_r. exact H2. }
  rewrite <- Hsingle. split.
  - intros [e He]. exact (proj1 (Hexn e He)).
  - intros H2. exists ValueError. unfold reconstruct.
    destruct cell_lines as [|l ls]; [contradiction|]. rewrite Hpoly.
    unfold order_polygon. destruct cell_points as [|p0 ps0] eqn:Hp; [contradiction|].
    rewrite <- Hp in *.
    pose proof (Permutation_length (order_points_perm cell_points)) as Hperm.
    rewrite H2 in Hperm. unfold Polygon_of_coords.
    destruct (order_points cell_points) as [|a [|b [|c rest]]]; simpl in Hperm;
      try discriminate. reflexivity.
Qed.

(** ** The preview *)

Lemma root_section_bad_id (root el : Element) :
  el ∈ group_elems root ++ wall_elems root ++ cell_elems root ->
  raises (py_int (get el "id")) ->
  raises (root_section root).
Proof.
  intros Hin Hbad. unfold root_section.
  destruct (parse_groups root) as [gm|e] eqn:Hg; [|exists e; reflexivity]. simpl.
  destruct (parse_walls root) as [wl|e] eqn:Hw; [|exists e; reflexivity]. simpl.
  apply elem_of_app in Hin as [Hin|Hin].
  { destruct (groups_loop_raises (group_elems root) ∅) as [e He]; [eauto|].
    unfold parse_groups in Hg. congruence. }
  apply elem_of_app in Hin as [Hin|Hin].
  { destruct (walls_loop_raises (wall_elems root) ∅) as [e He]; [eauto|].
    unfold parse_walls in Hw. congruence. }
  apply bind_raises. apply cells_loop_raises. eauto.
Qed.

(** X8: in the preview of the app, a mesh file that cannot be parsed gives no
    error message, only the notice that there is nothing to plot, while a
    parsed mesh with an id that is absent or not an integer gives the error
    message; the figure is never drawn in either case. *)
Theorem preview_of_bad_meshes (plot_error : list record -> option exn) :
  (forall e, ET_parse Preview.CURRENT_ROOT = Raise e ->
     Preview.preview plot_error true = Preview.EmptyNotice) /\
  (forall root el,
     ET_parse Preview.CURRENT_ROOT = Ok root ->
     el ∈ group_elems root ++ wall_elems root ++ cell_elems root ->
     raises (py_int (get el "id")) ->
     exists e, Preview.preview plot_error true = Preview.ErrorMessage e).
Proof.
  unfold Preview.preview, get_root_section. split.
  - intros e ->. reflexivity.
  - intros root el -> Hin Hbad.
    destruct (root_section_bad_id root el Hin Hbad) as [e ->]. eauto.
Qed.

End Facts.

Import Examples.

Lemma wall_index_sound_witness :
  exists w, w ∈ wall_elems mesh_triangle /\
            @wall_declares (on_disk mesh_triangle) w 2 (finite_points [(1, 0); (0, 1)]%Q).
Proof.
  assert (Hp : exists wl, @parse_walls (on_disk mesh_triangle) mesh_triangle = Ok wl /\
                          wl !! 2 = Some (mkLineString (finite_points [(1, 0); (0, 1)]%Q))).
  { eexists. split; vm_compute; reflexivity. }
  destruct Hp as (wl & Hp & Hl).
  exact (proj1 (@wall_index_sound (on_disk mesh_triangle) _ _ _ _ Hp Hl)).
Defined.

Lemma wall_last_declaration_wins_witness :
  exists wl,
    @parse_walls (on_disk mesh_repeated_wall) mesh_repeated_wall = Ok wl /\
    wl !! 1 = Some (mkLineString (finite_points [(0, 0); (0, 1)]%Q)).
Proof.
  assert (Hp : exists wl, @parse_walls (on_disk mesh_repeated_wall) mesh_repeated_wall = Ok wl)
    by (eexists; vm_compute; reflexivity).
  destruct Hp as (wl & Hp). exists wl. split; [exact Hp|].
  apply (@wall_last_declaration_wins (on_disk mesh_repeated_wall) mesh_repeated_wall wl
           [unit_segment] [] second_wall_1 1 (finite_points [(0, 0); (0, 1)]%Q) Hp).
  - vm_compute. reflexivity.
  - split; [vm_compute; reflexivity|]. eexists. split; [vm_compute; reflexivity|].
    split; [vm_compute; reflexivity|simpl; lia].
  - intros w' Hw'. inversion Hw'.
Defined.

Lemma gather_known_walls_witness :
  exists lines pts,
    @gather (on_disk mesh_triangle) mixed_refs
      (<[1 := mkLineString (finite_points [(0, 0); (1, 0)]%Q)]> ∅) [] [] = Ok (lines, pts) /\
    length lines = 2%nat /\ length pts = 4%nat.
Proof.
  eexists _, _. split.
  - apply (@gather_known_walls (on_disk mesh_triangle) _ mixed_refs [1; 99; 1]).
    repeat constructor; vm_compute; reflexivity.
  - split; vm_compute; reflexivity.
Defined.

Lemma record_exact_or_fallback_witness :
  exists wl r,
    @cell_record (on_disk mesh_triangle) ∅ wl triangle_cell = Ok (Some r) /\
    exists group_id cell_lines cell_points,
      @py_int (on_disk mesh_triangle) (get triangle_cell "group") = Ok group_id /\
      @gather (on_disk mesh_triangle) (wall_refs triangle_cell) wl [] []
      = Ok (cell_lines, cell_points) /\
      ((exists others, @polygonize (on_disk mesh_triangle) cell_lines = geometry r :: others /\
                       type r = resolve_cell_type ∅ group_id) \/
       (@polygonize (on_disk mesh_triangle) cell_lines = [] /\ type r = Some "fallback" /\
        shell (geometry r) ≡ₚ cell_points)).
Proof.
  assert (Hp : exists wl r,
             @cell_record (on_disk mesh_triangle) ∅ wl triangle_cell = Ok (Some r)).
  { exists (<[3 := mkLineString (finite_points [(0, 1); (0, 0)]%Q)]>
              (<[2 := mkLineString (finite_points [(1, 0); (0, 1)]%Q)]>
                 (<[1 := mkLineString (finite_points [(0, 0); (1, 0)]%Q)]> ∅))).
    eexists. vm_compute. reflexivity. }
  destruct Hp as (wl & r & Hr). exists wl, r. split; [exact Hr|].
  exact (@record_exact_or_fallback (on_disk mesh_triangle) _ _ _ _ Hr).
Defined.

Lemma records_follow_cells_witness :
  exists records,
    @get_root_section (on_disk mesh_triangle) "mesh.xml" = Ok records /\
    (length records <= length (cell_elems mesh_triangle))%nat.
Proof.
  assert (Hp : exists rs, @get_root_section (on_disk mesh_triangle) "mesh.xml" = Ok rs)
    by (eexists; vm_compute; reflexivity).
  destruct Hp as [rs Hp]. exists rs. split; [exact Hp|].
  apply (@records_follow_cells (on_disk mesh_triangle) "mesh.xml" mesh_triangle rs);
    [reflexivity|exact Hp].
Defined.

Lemma exceptions_of_get_root_section_witness :
  exists ring,
    forallb finite_point ring = false /\
    @ring_error (on_disk mesh_nan_wall) ring = Some GEOSException.
Proof.
  destruct (@exceptions_of_get_root_section (on_disk mesh_nan_wall) "mesh.xml" GEOSException)
    as [Hv|[Ht|[Hring|[records Hframe]]]].
  - vm_compute. reflexivity.
  - discriminate Hv.
  - discriminate Ht.
  - exact Hring.
  - discriminate Hframe.
Defined.

Lemma fallback_fails_on_single_two_point_wall_witness :
  raises (@reconstruct (on_disk mesh_single_open_wall) None
            [mkLineString (finite_points [(0, 0); (1, 0)]%Q)] (finite_points [(0, 0); (1, 0)]%Q)).
Proof.
  destruct (@fallback_fails_on_single_two_point_wall (on_disk mesh_single_open_wall)
              mesh_single_open_wall (<[1 := mkLineString (finite_points [(0, 0); (1, 0)]%Q)]> ∅)
              [wall_ref "1"] [mkLineString (finite_points [(0, 0); (1, 0)]%Q)] (finite_points [(0, 0); (1, 0)]%Q) None)
    as [Hiff _].
  - vm_compute. reflexivity.
  - vm_compute. reflexivity.
  - discriminate.
  - vm_compute. reflexivity.
  - reflexivity.
  - apply Hiff. eexists. split; reflexivity.
Defined.

Lemma preview_of_bad_meshes_witness :
  @Preview.preview (reference_externals (fun _ => Raise ParseError)) (fun _ => None) true
  = Preview.EmptyNotice /\
  exists e,
    @Preview.preview (reference_externals (one_file Preview.CURRENT_ROOT mesh_bad_cell_id))
      (fun _ => None) true = Preview.ErrorMessage e.
Proof.
  split.
  - apply (proj1 (@preview_of_bad_meshes (reference_externals (fun _ => Raise ParseError))
                    (fun _ => None)) ParseError).
    reflexivity.
  - apply (proj2 (@preview_of_bad_meshes
                    (reference_externals (one_file Preview.CURRENT_ROOT mesh_bad_cell_id))
                    (fun _ => None)) mesh_bad_cell_id (cell_elem "c1" "4" triangle_refs)).
    + vm_compute. reflexivity.
    + apply list_elem_of_In. vm_compute. do 3 right. left. reflexivity.
    + exists ValueError. vm_compute. reflexivity.
Defined.

End VizuExtra.

(** * Further properties of the sweep, the files and the display *)

Module AppExtra.
Import App AppProofs.

Ltac norm_consts :=
  repeat match goal with
         | |- context [inject_Z (Z.of_nat ?n)] =>
             let c := eval vm_compute in (inject_Z (Z.of_nat n)) in
             change (inject_Z (Z.of_nat n)) with c
         end.

Ltac name_step :=
  match goal with
  | |- context [(?a / 9)%Q] =>
      let d := fresh "d" in
      let Hd := fresh "Hd" in
      set (d := (a / 9)%Q);
      assert (Hd : (9 * d == a)%Q) by (unfold d; field);
      clearbody d
  end.

(** X9: in range mode the generated values are in ascending order and all of
    them lie between a tenth of the default and ten times the default, each
    times the conversion factor, whichever parameter is swept. *)
Theorem range_values_ascending_within_limits (param : Param) (value : Q)
    (selected : Q * Q) :
  slider_returns (min_limit param) (max_limit param) selected ->
  let c := conversion (PARAM_INFO param) in
  Sorted Qle (values param Range value selected) /\
  Forall (fun v => (min_limit param * c <= v /\ v <= max_limit param * c)%Q)
         (values param Range value selected).
Proof.
  destruct selected as [lo hi]. intros (H1 & H2 & H3). simpl in H1, H2, H3.
  destruct param; unfold min_limit, max_limit in *; simpl in H1, H3;
    unfold values, linspace; simpl; norm_consts; name_step;
    split; repeat constructor; lra.
Qed.

Lemma range_values_ascending_within_limits_witness :
  Sorted Qle (values plasmodesmata_conductance Range 0 (1, 20)%Q).
Proof.
  apply (range_values_ascending_within_limits plasmodesmata_conductance 0 (1, 20)%Q).
  unfold slider_returns, min_limit, max_limit. simpl.
  repeat split; apply Qle_bool_imp_le; reflexivity.
Defined.

Section SweepMore.
Context {World : Type}.
Variable update_xml_attributes :
  string -> string -> string -> gmap string string -> World -> World.
Variable mecha : World -> result (list Q * World).
Variable format : string -> Q -> string.

Local Abbreviation values_loop := (App.values_loop World update_xml_attributes mecha format).
Local Abbreviation sweep := (App.sweep World update_xml_attributes mecha format).
Local Abbreviation apply_value := (App.apply_value World update_xml_attributes format).

(** The loop over a list of values in two parts is the loop over the first
    part, continued over the second. *)
Lemma values_loop_app (param : Param) (scenarios : list Z) (pre post : list Q) :
  forall st : Run World,
    values_loop param scenarios (pre ++ post) st
    = values_loop param scenarios pre st ≫= values_loop param scenarios post.
Proof.
  induction pre as [|v pre IH]; intros st; simpl; [reflexivity|].
  destruct (mecha _) as [[out w']|e]; simpl; [|reflexivity].
  destruct (scenarios_loop v out 0 scenarios (results st)) as [res|e]; simpl;
    [apply IH|reflexivity].
Qed.

Lemma scenarios_loop_short (v : Q) (out : list Q) (scenarios : list Z) :
  forall (i_sc : nat) (res : list SweepResult),
    (i_sc <= length out)%nat -> (length out < i_sc + length scenarios)%nat ->
    scenarios_loop v out i_sc scenarios res = Raise IndexError.
Proof.
  induction scenarios as [|n rest IH]; intros i_sc res Hle Hlt; simpl in *; [lia|].
  destruct (out !! i_sc) as [k|] eqn:Hk; [|reflexivity].
  apply lookup_lt_Some in Hk. apply IH; lia.
Qed.

(** X10: when the simulator raises for some value, the sweep raises the same
    exception there and then: the later values are not run and the records of
    the earlier values are not returned. *)
Theorem simulator_failure_aborts_sweep (param : Param) (scenarios : list Z)
    (pre rest : list Q) (v : Q) (w : World) (run : Run World) (e : exn) :
  sweep param scenarios pre w = Ok run ->
  mecha (apply_value param v (world run)) = Raise e ->
  sweep param scenarios (pre ++ v :: rest) w = Raise e.
Proof.
  unfold App.sweep. intros Hpre Hfail. rewrite values_loop_app, Hpre. simpl.
  rewrite Hfail. reflexivity.
Qed.

(** X11: when the simulator returns fewer conductivities than there are
    selected scenarios, the sweep raises IndexError at that value. *)
Theorem short_vector_raises_index_error (param : Param) (scenarios : list Z)
    (pre rest : list Q) (v : Q) (w w' : World) (run : Run World) (out : list Q) :
  sweep param scenarios pre w = Ok run ->
  mecha (apply_value param v (world run)) = Ok (out, w') ->
  (length out < length scenarios)%nat ->
  sweep param scenarios (pre ++ v :: rest) w = Raise IndexError.
Proof.
  unfold App.sweep. intros Hpre Hout Hlen. rewrite values_loop_app, Hpre. simpl.
  rewrite Hout. simpl. rewrite scenarios_loop_short; [reflexivity|lia|simpl; lia].
Qed.

Lemma scenarios_loop_take (v : Q) (out : list Q) (scenarios : list Z) :
  forall (i_sc : nat) (res : list SweepResult),
    scenarios_loop v (take (i_sc + length scenarios) out) i_sc scenarios res
    = scenarios_loop v out i_sc scenarios res.
Proof.
  induction scenarios as [|n rest IH]; intros i_sc res; simpl; [reflexivity|].
  rewrite lookup_take_lt by lia.
  destruct (out !! i_sc) as [k|]; [|reflexivity].
  replace (i_sc + S (length rest))%nat with (S i_sc + length rest)%nat by lia.
  apply IH.
Qed.

(** X12: the sweep reads only the first k entries of each vector, k being
    the number of selected scenarios: a simulator whose vectors are cut after
    k entries gives the same records and leaves the same files. *)
Theorem entries_beyond_selection_unread (param : Param) (scenarios : list Z)
    (vs : list Q) (w : World) (run : Run World) :
  sweep param scenarios vs w = Ok run ->
  exists run',
    App.sweep World update_xml_attributes
      (fun w0 => out ← mecha w0; Ok (take (length scenarios) out.1, out.2))
      format param scenarios vs w = Ok run' /\
    results run' = results run /\ world run' = world run.
Proof.
  unfold App.sweep.
  enough (Hgen : forall st st' st2,
             values_loop param scenarios vs st = Ok st' ->
             world st2 = world st -> results st2 = results st ->
             exists st2',
               App.values_loop World update_xml_attributes
                 (fun w0 => out ← mecha w0; Ok (take (length scenarios) out.1, out.2))
                 format param scenarios vs st2 = Ok st2' /\
               results st2' = results st' /\ world st2' = world st').
  { intros Hrun. exact (Hgen _ _ (mkRun w [] []) Hrun eq_refl eq_refl). }
  induction vs as [|v rest IH]; intros st st' st2 Hrun Hw Hr; simpl in Hrun |- *.
  - injection Hrun as <-. exists st2. auto.
  - rewrite Hw, Hr. destruct (mecha _) as [[out w']|e]; [|discriminate]. simpl in Hrun |- *.
    rewrite (scenarios_loop_take v out scenarios 0).
    destruct (scenarios_loop v out 0 scenarios (results st)) as [res|e]; [|discriminate].
    simpl in Hrun |- *. eapply IH; [exact Hrun|reflexivity|reflexivity].
Qed.

(** X13: with no scenario selected the simulator is still run once per
    value (the vectors of the run are those that the simulator returns when
    run once for each value in order, and a simulator that counts its own
    invocations ends the sweep with its counter advanced by the number of
    values), no record is produced, and the display that follows finds no
    column to group by (KeyError). *)
Theorem no_scenario_selected (param : Param) (vs : list Q) (w : World) :
  (forall w0, exists out w', mecha w0 = Ok (out, w')) ->
  exists run,
    sweep param [] vs w = Ok run /\
    results run = [] /\
    length (invocations run) = length vs /\
    App.simulator_runs World update_xml_attributes mecha format param vs w
      (invocations run) (world run) /\
    (forall c,
       App.sweep (World * nat) (on_files update_xml_attributes) (counted mecha) format
         param [] vs (w, c)
       = Ok (mkRun (world run, (c + length vs)%nat) [] (invocations run))) /\
    Display.curves (results run) = None.
Proof.
  intros Hm.
  destruct (values_loop_total update_xml_attributes mecha format param [] vs) with
    (st := mkRun w [] []) as [run Hrun].
  { intros w0. destruct (Hm w0) as (out & w' & Hout). exists out, w'.
    split; [exact Hout|simpl; lia]. }
  exists run. split; [exact Hrun|].
  destruct (values_loop_runs update_xml_attributes mecha format _ _ _ _ _ Hrun)
    as (outs' & Hinv' & Hruns).
  simpl in Hinv', Hruns. rewrite <- Hinv' in Hruns.
  pose proof (counted_sweep_eq update_xml_attributes mecha format param [] vs w) as Hcount.
  unfold App.sweep in Hcount at 2. rewrite Hrun in Hcount. simpl in Hcount.
  apply values_loop_inv in Hrun as (new & outs & Hres & Hinv & Hlo & Hln & _).
  simpl in Hres, Hinv. rewrite Nat.mul_0_r in Hln. destruct new; [|discriminate].
  rewrite Hres in *. rewrite Hinv. split; [reflexivity|]. split; [exact Hlo|].
  split; [rewrite <- Hinv; exact Hruns|]. split; [|reflexivity].
  intros c. rewrite <- Hinv. apply Hcount.
Qed.

(** ** The curves *)

Lemma scenarios_loop_keys (v : Q) (out : list Q) (scenarios : list Z) :
  forall (i_sc : nat) (res res' : list SweepResult),
    scenarios_loop v out i_sc scenarios res = Ok res' ->
    map Display.key res' = map Display.key res ++ map (pair v) scenarios.
Proof.
  induction scenarios as [|n rest IH]; intros i_sc res res' Hrun; simpl in Hrun.
  - injection Hrun as <-. simpl. rewrite app_nil_r. reflexivity.
  - destruct (out !! i_sc) as [k|]; [|discriminate].
    apply IH in Hrun. rewrite Hrun, map_app, <- app_assoc. reflexivity.
Qed.

Lemma values_loop_keys (param : Param) (scenarios : list Z) (vs : list Q) :
  forall st st' : Run World,
    values_loop param scenarios vs st = Ok st' ->
    map Display.key (results st')
    = map Display.key (results st) ++ flat_map (fun v => map (pair v) scenarios) vs.
Proof.
  induction vs as [|v rest IH]; intros st st' Hrun; simpl in Hrun.
  - injection Hrun as <-. simpl. rewrite app_nil_r. reflexivity.
  - destruct (mecha _) as [[out w']|e]; [|discriminate]. simpl in Hrun.
    destruct (scenarios_loop v out 0 scenarios (results st)) as [res|e] eqn:Hs;
      [|discriminate].
    simpl in Hrun. apply IH in Hrun. simpl in Hrun.
    rewrite Hrun, (scenarios_loop_keys _ _ _ _ _ _ Hs), <- app_assoc. reflexivity.
Qed.

End SweepMore.

Lemma series_keys (df : list SweepResult) (n : Z) :
  map parameter_value (Display.series df n)
  = map fst (List.filter (fun p => snd p =? n) (map Display.key df)).
Proof.
  unfold Display.series. induction df as [|r df IH]; simpl; [reflexivity|].
  destruct (hydraulic_scenario r =? n); simpl; rewrite IH; reflexivity.
Qed.

Lemma filter_pairs_none (v : Q) (n : Z) (scenarios : list Z) :
  n ∉ scenarios -> List.filter (fun p => snd p =? n) (map (pair v) scenarios) = [].
Proof.
  induction scenarios as [|x l IH]; intros Hn; simpl; [reflexivity|].
  apply not_elem_of_cons in Hn as [Hne Hn].
  destruct (Z.eqb_spec x n); [congruence|auto].
Qed.

Lemma filter_pairs_one (v : Q) (n : Z) (scenarios : list Z) :
  NoDup scenarios -> n ∈ scenarios ->
  List.filter (fun p => snd p =? n) (map (pair v) scenarios) = [(v, n)].
Proof.
  induction 1 as [|x l Hx Hnd IH]; intros Hin; [inversion Hin|]. simpl.
  destruct (Z.eqb_spec x n) as [->|Hne].
  - rewrite filter_pairs_none by exact Hx. reflexivity.
  - apply elem_of_cons in Hin as [->|Hin]; [contradiction|auto].
Qed.

Lemma filter_values (n : Z) (scenarios : list Z) (vs : list Q) :
  NoDup scenarios -> n ∈ scenarios ->
  map fst (List.filter (fun p => snd p =? n)
             (flat_map (fun v => map (pair v) scenarios) vs)) = vs.
Proof.
  intros Hnd Hin. induction vs as [|v vs IH]; simpl; [reflexivity|].
  rewrite List.filter_app, map_app, filter_pairs_one, IH by assumption. reflexivity.
Qed.

Lemma scenario_column (scenarios : list Z) (vs : list Q) (n : Z) :
  vs <> [] ->
  In n (map snd (flat_map (fun v => map (pair v) scenarios) vs)) <-> In n scenarios.
Proof.
  intros Hvs. rewrite in_map_iff. split.
  - intros ([v m] & <- & Hin). apply in_flat_map in Hin as (v' & _ & Hin).
    apply in_map_iff in Hin as (m' & Heq & Hm). injection Heq as _ <-. exact Hm.
  - intros Hin. destruct vs as [|v vs]; [contradiction|].
    exists (v, n). split; [reflexivity|]. apply in_flat_map. exists v.
    split; [left; reflexivity|]. apply in_map. exact Hin.
Qed.

Lemma unique_In (l : list Z) (x : Z) : In x (Display.unique l) <-> In x l.
Proof.
  induction l as [|a l IH]; simpl; [reflexivity|].
  rewrite filter_In, IH. destruct (Z.eqb_spec x a) as [->|Hne]; simpl.
  - split; intros _; left; reflexivity.
  - split.
    + intros [Heq|[Hin _]]; [left; exact Heq|right; exact Hin].
    + intros [Heq|Hin]; [left; exact Heq|right; split; [exact Hin|reflexivity]].
Qed.

Lemma unique_NoDup (l : list Z) : List.NoDup (Display.unique l).
Proof.
  induction l as [|a l IH]; simpl; constructor.
  - rewrite filter_In. intros [_ Hneq]. rewrite Z.eqb_refl in Hneq. discriminate.
  - apply List.NoDup_filter. exact IH.
Qed.

Section Curves.
Context {World : Type}.
Variable update_xml_attributes :
  string -> string -> string -> gmap string string -> World -> World.
Variable mecha : World -> result (list Q * World).
Variable format : string -> Q -> string.

(** X14: after a completed sweep over at least one value with the selected
    scenarios all different, the plot has one curve per selected scenario,
    the curves come in ascending order of the scenario, and every curve has
    exactly one point per generated value, in generation order. *)
Theorem one_curve_per_scenario (param : Param) (scenarios : list Z) (vs : list Q)
    (w : World) (run : Run World) :
  App.sweep World update_xml_attributes mecha format param scenarios vs w = Ok run ->
  NoDup scenarios -> scenarios <> [] -> vs <> [] ->
  exists cs,
    Display.curves (results run) = Some cs /\
    Sorted Z.le (map fst cs) /\
    NoDup (map fst cs) /\
    (forall n, n ∈ map fst cs <-> n ∈ scenarios) /\
    (forall n pts, (n, pts) ∈ cs -> map fst pts = vs).
Proof.
  intros Hrun Hnd Hsc Hvs. unfold App.sweep in Hrun.
  apply values_loop_keys in Hrun. simpl in Hrun.
  set (df := results run) in *.
  assert (Hdf : df <> []).
  { intros Hnil. rewrite Hnil in Hrun. simpl in Hrun.
    destruct vs as [|v vs]; [contradiction|]. destruct scenarios; [contradiction|].
    discriminate. }
  assert (Hcol : forall n, In n (map hydraulic_scenario df) <-> In n scenarios).
  { intros n. rewrite <- (scenario_column scenarios vs n Hvs), <- Hrun, map_map.
    reflexivity. }
  set (sorted := merge_sort Z.le (Display.unique (map hydraulic_scenario df))).
  assert (Hperm : sorted ≡ₚ Display.unique (map hydraulic_scenario df))
    by apply merge_sort_Permutation.
  assert (Hmem : forall n, n ∈ sorted <-> n ∈ scenarios).
  { intros n. rewrite Hperm, !list_elem_of_In, unique_In. apply Hcol. }
  set (curve := fun n_sc : Z =>
                  (n_sc, map (fun r => (parameter_value r, kr r)) (Display.series df n_sc))).
  assert (Hfst : map fst (map curve sorted) = sorted).
  { rewrite map_map. simpl. apply map_id. }
  exists (map curve sorted). split; [|split; [|split; [|split]]].
  - unfold Display.curves. destruct df; [contradiction|]. reflexivity.
  - rewrite Hfst. apply Sorted_merge_sort. apply _.
  - rewrite Hfst, Hperm. apply NoDup_ListNoDup, unique_NoDup.
  - intros n. rewrite Hfst. apply Hmem.
  - intros n pts Hin. apply list_elem_of_In, in_map_iff in Hin as (m & Heq & Hm).
    unfold curve in Heq. injection Heq as -> <-.
    rewrite map_map. simpl. change (map (fun r => parameter_value r) ?l) with (map parameter_value l).
    rewrite series_keys, Hrun. apply filter_values; [exact Hnd|].
    apply Hmem, list_elem_of_In. exact Hm.
Qed.

End Curves.

(** ** The files of a run *)

Section FilesFacts.
Variable abspath : string -> string.

Local Abbreviation G := (abspath App.GEOM_PATH).
Local Abbreviation H := (abspath App.HYDRAULICS_PATH).
Local Abbreviation I := (abspath Files.HYDRAULICS_PATH_INIT).

(** The clean start, once the sources are known to differ from the targets. *)
Lemma clean_start_eq (use_preloaded : bool) (fs : gmap string string) :
  let S := abspath (if use_preloaded then Files.GEOM_PATH_PRE else Files.GEOM_PATH_INIT) in
  S <> G -> I <> H ->
  Files.clean_start abspath use_preloaded fs
  = match fs !! S with
    | None => Raise OSError
    | Some g =>
        match <[G := g]> fs !! I with
        | None => Raise OSError
        | Some h => Ok (<[H := h]> (<[G := g]> fs))
        end
    end.
Proof.
  intros S HS HI. unfold Files.clean_start, Files.safe_copy.
  apply String.eqb_neq in HI. subst S.
  destruct use_preloaded; apply String.eqb_neq in HS; rewrite HS;
    (destruct (fs !! _) as [g|]; simpl; [|reflexivity]); rewrite HI;
    destruct (<[G := g]> fs !! I); reflexivity.
Qed.

Lemma clean_start_agree (use_preloaded : bool) (fs1 fs2 : gmap string string) :
  let S := abspath (if use_preloaded then Files.GEOM_PATH_PRE else Files.GEOM_PATH_INIT) in
  S <> G -> S <> H -> I <> G -> I <> H ->
  (forall p, p <> G -> p <> H -> fs1 !! p = fs2 !! p) ->
  Files.clean_start abspath use_preloaded fs1 = Files.clean_start abspath use_preloaded fs2.
Proof.
  intros S HSG HSH HIG HIH Hagree.
  rewrite !clean_start_eq by assumption. fold S.
  rewrite (Hagree S HSG HSH). destruct (fs2 !! S) as [g|]; [|reflexivity].
  rewrite !lookup_insert_ne by (intros Heq; apply HIG; symmetry; exact Heq).
  rewrite (Hagree I HIG HIH). destruct (fs2 !! I) as [h|]; [|reflexivity].
  f_equal. apply map_eq. intros p.
  destruct (decide (p = H)) as [->|HpH]; [rewrite !lookup_insert_eq; reflexivity|].
  rewrite !(lookup_insert_ne _ H) by (intros Heq; apply HpH; symmetry; exact Heq).
  destruct (decide (p = G)) as [->|HpG]; [rewrite !lookup_insert_eq; reflexivity|].
  rewrite !(lookup_insert_ne _ G) by (intros Heq; apply HpG; symmetry; exact Heq).
  apply Hagree; assumption.
Qed.

(** X15: when the four paths of the clean start name different files, a
    clean start that succeeds leaves in Geometry.xml the content of the
    geometry source (the preloaded or the default geometry), in
    Hydraulics.xml the content of the default hydraulics, and every other
    file as it was; it fails with OSError when one of the two sources does
    not exist. *)
Theorem clean_start_restores_inputs (use_preloaded : bool) (fs : gmap string string) :
  let S := abspath (if use_preloaded then Files.GEOM_PATH_PRE else Files.GEOM_PATH_INIT) in
  S <> G -> I <> G -> I <> H -> G <> H ->
  (forall fs', Files.clean_start abspath use_preloaded fs = Ok fs' ->
     fs' !! G = fs !! S /\ fs' !! H = fs !! I /\
     is_Some (fs !! S) /\ is_Some (fs !! I) /\
     forall p, p <> G -> p <> H -> fs' !! p = fs !! p) /\
  (fs !! S = None \/ fs !! I = None ->
   Files.clean_start abspath use_preloaded fs = Raise OSError).
Proof.
  intros S HSG HIG HIH HGH. rewrite clean_start_eq by assumption. fold S.
  assert (HI : forall g, <[G := g]> fs !! I = fs !! I)
    by (intros g; apply lookup_insert_ne; intros Heq; apply HIG; symmetry; exact Heq).
  split.
  - intros fs' Hrun. destruct (fs !! S) as [g|]; [|discriminate].
    rewrite HI in Hrun. destruct (fs !! I) as [h|]; [|discriminate].
    injection Hrun as <-. split; [|split; [|split; [|split]]]; eauto.
    + rewrite lookup_insert_ne by (intros Heq; apply HGH; symmetry; exact Heq).
      apply lookup_insert_eq.
    + apply lookup_insert_eq.
    + intros p HpG HpH.
      rewrite lookup_insert_ne by (intros Heq; apply HpH; symmetry; exact Heq).
      apply lookup_insert_ne. intros Heq; apply HpG; symmetry; exact Heq.
  - intros [HS|HIn].
    + rewrite HS. reflexivity.
    + destruct (fs !! S) as [g|]; [|reflexivity]. rewrite HI, HIn. reflexivity.
Qed.

Variable update_xml_attributes :
  string -> string -> string -> gmap string string -> gmap string string -> gmap string string.
Variable mecha : gmap string string -> result (list Q * gmap string string).
Variable set_hydraulic_scenario : string -> list Z -> gmap string string -> gmap string string.
Variable format : string -> Q -> string.

Local Abbreviation run_simulation :=
  (Files.run_simulation abspath update_xml_attributes mecha set_hydraulic_scenario format).

(** X16: a run does not depend on what Geometry.xml and Hydraulics.xml held
    before it: two states of the disk that agree on every other file give the
    same result, records and exceptions alike. *)
Theorem run_ignores_previous_inputs (use_preloaded : bool) (param : Param)
    (scenarios : list Z) (vs : list Q) (fs1 fs2 : gmap string string) :
  let S := abspath (if use_preloaded then Files.GEOM_PATH_PRE else Files.GEOM_PATH_INIT) in
  S <> G -> S <> H -> I <> G -> I <> H ->
  (forall p, p <> G -> p <> H -> fs1 !! p = fs2 !! p) ->
  run_simulation use_preloaded param scenarios vs fs1
  = run_simulation use_preloaded param scenarios vs fs2.
Proof.
  intros S HSG HSH HIG HIH Hagree. unfold Files.run_simulation.
  rewrite (clean_start_agree use_preloaded fs1 fs2) by assumption. reflexivity.
Qed.

(** X17: in upload mode the uploaded geometry.xml never reaches the
    simulator: it is saved as Geometry.xml, which the clean start of the run
    overwrites with the default geometry, so that two uploads that differ in
    the geometry file give the same run. *)
Theorem uploaded_geometry_is_overwritten (param : Param) (scenarios : list Z)
    (vs : list Q) (fs : gmap string string) (cellset_file geometry_file other_file : string) :
  abspath Files.GEOM_PATH_INIT <> G -> abspath Files.GEOM_PATH_INIT <> H ->
  I <> G -> I <> H ->
  run_simulation false param scenarios vs
    (Files.save_upload abspath cellset_file geometry_file fs)
  = run_simulation false param scenarios vs
      (Files.save_upload abspath cellset_file other_file fs).
Proof.
  intros HSG HSH HIG HIH. unfold Files.run_simulation.
  rewrite (clean_start_agree false
             (Files.save_upload abspath cellset_file geometry_file fs)
             (Files.save_upload abspath cellset_file other_file fs)); try assumption;
    [reflexivity|].
  intros p HpG _. unfold Files.save_upload.
  rewrite !(lookup_insert_ne _ G) by (intros Heq; apply HpG; symmetry; exact Heq).
  reflexivity.
Qed.

End FilesFacts.

(** ** The properties on concrete runs *)

Lemma simulator_failure_aborts_sweep_witness :
  App.sweep string write_value (moody_mecha "2/1" [7; 8]%Q) show_value
    membrane_permeability [0; 1] [1; 2; 3]%Q "" = Raise OSError.
Proof.
  eapply (simulator_failure_aborts_sweep write_value (moody_mecha "2/1" [7; 8]%Q) show_value
            membrane_permeability [0; 1] [1%Q] [3%Q] 2%Q "").
  - vm_compute. reflexivity.
  - vm_compute. reflexivity.
Defined.

Lemma short_vector_raises_index_error_witness :
  App.sweep string write_value (fixed_mecha [7%Q]) show_value
    membrane_permeability [0; 1] [1%Q] "" = Raise IndexError.
Proof.
  eapply (short_vector_raises_index_error write_value (fixed_mecha [7%Q]) show_value
            membrane_permeability [0; 1] [] [] 1%Q "").
  - vm_compute. reflexivity.
  - vm_compute. reflexivity.
  - simpl. lia.
Defined.

Lemma entries_beyond_selection_unread_witness :
  exists run run',
    App.sweep string write_value (fixed_mecha [7; 8; 9; 10; 11]%Q) show_value
      membrane_permeability [3; 1] [1; 2]%Q "" = Ok run /\
    App.sweep string write_value
      (fun w0 => out ← fixed_mecha [7; 8; 9; 10; 11]%Q w0; Ok (take 2 out.1, out.2))
      show_value membrane_permeability [3; 1] [1; 2]%Q "" = Ok run' /\
    results run' = results run.
Proof.
  assert (Hp : exists run,
             App.sweep string write_value (fixed_mecha [7; 8; 9; 10; 11]%Q) show_value
               membrane_permeability [3; 1] [1; 2]%Q "" = Ok run)
    by (eexists; vm_compute; reflexivity).
  destruct Hp as [run Hp]. exists run.
  destruct (entries_beyond_selection_unread write_value (fixed_mecha [7; 8; 9; 10; 11]%Q)
              show_value membrane_permeability [3; 1] [1; 2]%Q "" run Hp)
    as (run' & Hrun' & Hres & _).
  exists run'. auto.
Defined.

Lemma no_scenario_selected_witness :
  exists run,
    App.sweep string write_value (fixed_mecha [7; 8]%Q) show_value
      cell_wall_thickness [] [1; 2]%Q "" = Ok run /\
    results run = [] /\ length (invocations run) = 2%nat /\
    App.sweep (string * nat) (on_files write_value) (counted (fixed_mecha [7; 8]%Q))
      show_value cell_wall_thickness [] [1; 2]%Q ("", 0%nat)
    = Ok (mkRun (world run, 2%nat) [] (invocations run)) /\
    Display.curves (results run) = None.
Proof.
  destruct (no_scenario_selected write_value (fixed_mecha [7; 8]%Q) show_value
              cell_wall_thickness [1; 2]%Q "")
    as (run & Hrun & Hres & Hinv & _ & Hcount & Hcurves).
  - intros w0. exists [7; 8]%Q, w0. reflexivity.
  - exists run. split; [exact Hrun|]. split; [exact Hres|]. split; [exact Hinv|].
    split; [exact (Hcount 0%nat)|exact Hcurves].
Defined.

Lemma one_curve_per_scenario_witness :
  exists run cs,
    App.sweep string write_value (fixed_mecha [7; 8; 9; 10; 11]%Q) show_value
      membrane_permeability [3; 1] [1; 2]%Q "" = Ok run /\
    Display.curves (results run) = Some cs /\
    (forall n pts, (n, pts) ∈ cs -> map fst pts = [1; 2]%Q).
Proof.
  assert (Hp : exists run,
             App.sweep string write_value (fixed_mecha [7; 8; 9; 10; 11]%Q) show_value
               membrane_permeability [3; 1] [1; 2]%Q "" = Ok run)
    by (eexists; vm_compute; reflexivity).
  destruct Hp as [run Hp]. exists run.
  destruct (one_curve_per_scenario write_value (fixed_mecha [7; 8; 9; 10; 11]%Q)
              show_value membrane_permeability [3; 1] [1; 2]%Q "" run Hp)
    as (cs & Hcs & _ & _ & _ & Hpts).
  - apply NoDup_ListNoDup. repeat constructor; simpl; intuition discriminate.
  - discriminate.
  - discriminate.
  - exists cs. auto.
Defined.

Lemma clean_start_restores_inputs_witness :
  exists fs',
    Files.clean_start (fun p => p) true
      (list_to_map [(Files.GEOM_PATH_PRE, "preloaded"); (Files.HYDRAULICS_PATH_INIT, "maize");
                    (App.GEOM_PATH, "left over")]) = Ok fs' /\
    fs' !! App.GEOM_PATH = Some "preloaded" /\ fs' !! App.HYDRAULICS_PATH = Some "maize".
Proof.
  assert (Hp : exists fs',
             Files.clean_start (fun p => p) true
               (list_to_map [(Files.GEOM_PATH_PRE, "preloaded");
                             (Files.HYDRAULICS_PATH_INIT, "maize");
                             (App.GEOM_PATH, "left over")]) = Ok fs')
    by (eexists; vm_compute; reflexivity).
  destruct Hp as [fs' Hp]. exists fs'. split; [exact Hp|].
  destruct (clean_start_restores_inputs (fun p => p) true
              (list_to_map [(Files.GEOM_PATH_PRE, "preloaded");
                            (Files.HYDRAULICS_PATH_INIT, "maize");
                            (App.GEOM_PATH, "left over")])) as [Hpost _];
    try (intros Heq; vm_compute in Heq; discriminate Heq).
  destruct (Hpost fs' Hp) as (HG & HH & _).
  split; [rewrite HG|rewrite HH]; vm_compute; reflexivity.
Defined.

Lemma run_ignores_previous_inputs_witness :
  Files.run_simulation (fun p => p) Files.patch_file Files.geometry_size_mecha
    (fun _ _ fs => fs) show_value true membrane_permeability [0; 1] [1; 2]%Q
    (Files.disk_with "a geometry" "some hydraulics")
  = Files.run_simulation (fun p => p) Files.patch_file Files.geometry_size_mecha
      (fun _ _ fs => fs) show_value true membrane_permeability [0; 1] [1; 2]%Q
      (Files.disk_with "quite another geometry" "other hydraulics") /\
  exists run,
    Files.run_simulation (fun p => p) Files.patch_file Files.geometry_size_mecha
      (fun _ _ fs => fs) show_value true membrane_permeability [0; 1] [1; 2]%Q
      (Files.disk_with "a geometry" "some hydraulics") = Ok run /\
    length (results run) = 4%nat.
Proof.
  split.
  - apply (run_ignores_previous_inputs (fun p => p));
      try (intros Heq; vm_compute in Heq; discriminate Heq).
    intros p HpG HpH. unfold Files.disk_with.
    rewrite !(lookup_insert_ne _ App.GEOM_PATH) by congruence.
    rewrite !(lookup_insert_ne _ App.HYDRAULICS_PATH) by congruence.
    reflexivity.
  - eexists. split; [vm_compute; reflexivity|reflexivity].
Defined.

Lemma uploaded_geometry_is_overwritten_witness :
  Files.run_simulation (fun p => p) Files.patch_file Files.geometry_size_mecha
    (fun _ _ fs => fs) show_value false membrane_permeability [0; 1] [1; 2]%Q
    (Files.save_upload (fun p => p) "cells" "my geometry" Files.base_disk)
  = Files.run_simulation (fun p => p) Files.patch_file Files.geometry_size_mecha
      (fun _ _ fs => fs) show_value false membrane_permeability [0; 1] [1; 2]%Q
      (Files.save_upload (fun p => p) "cells" "quite another geometry" Files.base_disk) /\
  exists run,
    Files.run_simulation (fun p => p) Files.patch_file Files.geometry_size_mecha
      (fun _ _ fs => fs) show_value false membrane_permeability [0; 1] [1; 2]%Q
      (Files.save_upload (fun p => p) "cells" "my geometry" Files.base_disk) = Ok run /\
    map kr (results run) = [16; 8; 16; 8]%Q.
Proof.
  split.
  - apply (uploaded_geometry_is_overwritten (fun p => p));
      intros Heq; vm_compute in Heq; discriminate Heq.
  - eexists. split; [vm_compute; reflexivity|reflexivity].
Defined.

End AppExtra.
